(** * Custom-elements polyfill: the patched [Node] and [Element] operations

    A shallow embedding of
      - packages/custom-elements/src/Patch/Node.js     (module [PatchNode])
      - the [Element] patch file of the same package   (module [PatchElement])

    The patches are written against three collaborators that they receive or
    import: the browser's unpatched methods ([Native]), the helper module
    [Utilities] and the [internals] object.  None of the three is defined in
    the two files, so each is an interface here (a type class over the type
    [W] of browser worlds), and the patched operations are programs in a
    state-and-exception monad over

      - the world [W] (the live tree, the attribute stores, the per-node
        custom-element state and whatever [internals] keeps),
      - the depth of the reaction-queue stack,
      - the trace of calls the patch made to its collaborators.

    Everything proved below holds for every implementation of the interfaces;
    module [Browser] gives one small implementation on which the operations
    run by computation. *)

From Stdlib Require Import List String Ascii Bool Arith Lia.
Import ListNotations.
Local Open Scope string_scope.
Local Open Scope list_scope.

Set Implicit Arguments.

(** ** Values *)

(** Nodes are object identities. *)
Definition Node := nat.

(** The classes the patches test with [instanceof] and [nodeType]. *)
Inductive NodeKind :=
| DocumentNode
| DocumentFragmentNode
| ElementNode
| TextNode
| CommentNode.

Definition NodeKind_eqb (a b : NodeKind) : bool :=
  match a, b with
  | DocumentNode, DocumentNode
  | DocumentFragmentNode, DocumentFragmentNode
  | ElementNode, ElementNode
  | TextNode, TextNode
  | CommentNode, CommentNode => true
  | _, _ => false
  end.

(** Modelled from the spec: CustomElementState.js is not among the sources;
    the patches only compare [__CE_state] with [CEState.custom].  The four
    lifecycle states are those of the data model. *)
Inductive CEState :=
| uncustomized
| undefined
| failed
| custom.

Definition CEState_eqb (a b : CEState) : bool :=
  match a, b with
  | uncustomized, uncustomized
  | undefined, undefined
  | failed, failed
  | custom, custom => true
  | _, _ => false
  end.

(** JavaScript [null] is [None]. *)
Definition option_eqb {A} (eqb : A -> A -> bool) (a b : option A) : bool :=
  match a, b with
  | None, None => true
  | Some x, Some y => eqb x y
  | _, _ => false
  end.

(** [a !== b] on nullable nodes and on nullable strings. *)
Definition node_eqb : option Node -> option Node -> bool := option_eqb Nat.eqb.
Definition value_eqb : option string -> option string -> bool := option_eqb String.eqb.

(** Exceptions: the two the patches throw themselves, the [TypeError] of a
    property read on [null], and whatever a native method throws. *)
Inductive Exn :=
| SyntaxError (msg : string)
| Error (msg : string)
| TypeError (msg : string)
| DOMException (name : string).

(** The native methods a patch calls through to. *)
Inductive NativeCall :=
| Call_insertBefore (this node : Node) (refNode : option Node)
| Call_appendChild (this node : Node)
| Call_cloneNode (this : Node) (deep : bool)
| Call_removeChild (this node : Node)
| Call_replaceChild (this nodeToInsert nodeToRemove : Node)
| Call_setAttribute (this : Node) (name newValue : string)
| Call_setAttributeNS (this : Node) (namespace : option string) (name newValue : string)
| Call_removeAttribute (this : Node) (name : string)
| Call_removeAttributeNS (this : Node) (namespace : option string) (name : string)
| Call_set (property : string) (this : Node) (assignedValue : string)
| Call_insertAdjacentElement (this : Node) (position : string) (element : Node)
| Call_insertAdjacentHTML (this : Node) (position text : string).

(** What a patch does to its collaborators, in the order it does it. *)
Inductive Event :=
| EvPush
| EvPop
| EvNative (call : NativeCall)
| EvConnectTree (root : Node)
| EvDisconnectTree (root : Node)
| EvPatchTree (root : Node)
| EvPatchAndUpgradeTree (root : Node)
| EvAttributeChanged (element : Node) (name : string)
                     (oldValue newValue : option string) (namespace : option string)
| EvDisconnected (element : Node).

(** ** The monad of the patched operations *)

Inductive Outcome (A : Type) :=
| Returns (a : A)
| Throws (e : Exn)
| OutOfFuel.
Arguments Returns {A} a.
Arguments Throws {A} e.
Arguments OutOfFuel {A}.

Record State (W : Type) := mkState {
  world : W;
  frames : nat;
  log : list Event
}.

Definition M (W A : Type) : Type := State W -> Outcome A * State W.

Section Monad.
Context {W : Type}.

Definition ret {A} (a : A) : M W A := fun s => (Returns a, s).

Definition bind {A B} (m : M W A) (k : A -> M W B) : M W B :=
  fun s =>
    match m s with
    | (Returns a, s') => k a s'
    | (Throws e, s') => (Throws e, s')
    | (OutOfFuel, s') => (OutOfFuel, s')
    end.

Definition throw {A} (e : Exn) : M W A := fun s => (Throws e, s).

Definition diverge {A} : M W A := fun s => (OutOfFuel, s).

(** A property read. *)
Definition read {A} (f : W -> A) : M W A := fun s => (Returns (f (world s)), s).

(** A call of a native method: it returns a value and a new world, or it
    throws and leaves the world as it was.  Only a call that returned is
    entered in the trace. *)
Definition native {A} (call : NativeCall) (f : W -> Exn + A * W) : M W A :=
  fun s =>
    match f (world s) with
    | inr (a, w') => (Returns a, mkState w' (frames s) (log s ++ [EvNative call]))
    | inl e => (Throws e, s)
    end.

(** A call of a helper that changes nothing and may throw. *)
Definition attempt {A} (f : W -> Exn + A) : M W A :=
  fun s =>
    match f (world s) with
    | inr a => (Returns a, s)
    | inl e => (Throws e, s)
    end.

(** A call of an [internals] method: traced, with its effect on the world. *)
Definition engine (ev : Event) (f : W -> W) : M W unit :=
  fun s => (Returns tt, mkState (f (world s)) (frames s) (log s ++ [ev])).

(** [if (c) { m }] *)
Definition when (c : bool) (m : M W unit) : M W unit :=
  if c then m else ret tt.

Definition run {A} (m : M W A) (s : State W) : Outcome A * State W := m s.
Definition outcome {A} (m : M W A) (s : State W) : Outcome A := fst (m s).
Definition exec {A} (m : M W A) (s : State W) : State W := snd (m s).
End Monad.

Declare Scope js_scope.
Delimit Scope js_scope with js.
Notation "x <- m ;; k" := (bind m (fun x => k))
  (at level 61, m at next level, right associativity) : js_scope.
Notation "m ;; k" := (bind m (fun _ => k))
  (at level 61, right associativity) : js_scope.
Local Open Scope js_scope.

(** ** The collaborators *)

(** Property reads on nodes.  [__CE_registry] and [__CE_hasRegistry] are read
    for their truthiness only. *)
Class Dom (W : Type) := {
  nodeKind : W -> Node -> NodeKind;
  parentNode : W -> Node -> option Node;
  firstChild : W -> Node -> option Node;
  lastChild : W -> Node -> option Node;
  previousSibling : W -> Node -> option Node;
  nextSibling : W -> Node -> option Node;
  ownerDocument : W -> Node -> option Node;
  __CE_state : W -> Node -> CEState;
  __CE_registry : W -> Node -> bool;
  __CE_hasRegistry : W -> Node -> bool
}.

(** Native.js: the unpatched methods, as functions of the world. *)
Class NativeMethods (W : Type) := {
  native_insertBefore : Node -> Node -> option Node -> W -> Exn + Node * W;
  native_appendChild : Node -> Node -> W -> Exn + Node * W;
  native_cloneNode : Node -> bool -> W -> Exn + Node * W;
  native_removeChild : Node -> Node -> W -> Exn + Node * W;
  native_replaceChild : Node -> Node -> Node -> W -> Exn + Node * W;
  native_getAttribute : W -> Node -> string -> option string;
  native_setAttribute : Node -> string -> string -> W -> Exn + unit * W;
  native_getAttributeNS : W -> Node -> option string -> string -> option string;
  native_setAttributeNS : Node -> option string -> string -> string -> W -> Exn + unit * W;
  native_removeAttribute : Node -> string -> W -> Exn + unit * W;
  native_removeAttributeNS : Node -> option string -> string -> W -> Exn + unit * W
}.

(** Utilities.js.  [walkDeepDescendantElements] is given by the sequence of
    elements it hands to its callback.  One call site hands [isConnected] a
    value that may be [null]; what the function does with it (an answer, or
    the TypeError of a property read on [null]) is the implementation's
    affair. *)
Class UtilitiesModule (W : Type) := {
  util_isConnected : W -> Node -> bool;
  util_isConnected_null : W -> Exn + bool;
  util_walkDeepDescendantElements : W -> Node -> list Node
}.

(** CustomElementInternals.js: the effect of each method on the world.  The
    effect is arbitrary (an upgrade runs a constructor, which may rearrange
    the tree); the methods are taken to return, the engine reporting the
    errors of user code to a sink instead of throwing them at its caller. *)
Class CustomElementInternals (W : Type) := {
  on_connectTree : Node -> W -> W;
  on_disconnectTree : Node -> W -> W;
  on_patchTree : Node -> W -> W;
  on_patchAndUpgradeTree : Node -> W -> W;
  on_attributeChangedCallback :
    Node -> string -> option string -> option string -> option string -> W -> W;
  on_disconnectedCallback : Node -> W -> W
}.

(** A property descriptor handed to a [patch_*] function; only its setter is
    used by the patched setter. *)
Record Descriptor (W : Type) := {
  descriptor_set : Node -> string -> W -> Exn + unit * W
}.

Module Native.
Section Calls.
Context {W : Type} `{NativeMethods W}.

Definition Node_insertBefore (this node : Node) (refNode : option Node) : M W Node :=
  native (Call_insertBefore this node refNode) (native_insertBefore this node refNode).
Definition Node_appendChild (this node : Node) : M W Node :=
  native (Call_appendChild this node) (native_appendChild this node).
Definition Node_cloneNode (this : Node) (deep : bool) : M W Node :=
  native (Call_cloneNode this deep) (native_cloneNode this deep).
Definition Node_removeChild (this node : Node) : M W Node :=
  native (Call_removeChild this node) (native_removeChild this node).
Definition Node_replaceChild (this nodeToInsert nodeToRemove : Node) : M W Node :=
  native (Call_replaceChild this nodeToInsert nodeToRemove)
         (native_replaceChild this nodeToInsert nodeToRemove).
Definition Element_getAttribute (this : Node) (name : string) : M W (option string) :=
  read (fun w => native_getAttribute w this name).
Definition Element_setAttribute (this : Node) (name newValue : string) : M W unit :=
  native (Call_setAttribute this name newValue) (native_setAttribute this name newValue).
Definition Element_getAttributeNS (this : Node) (namespace : option string)
           (name : string) : M W (option string) :=
  read (fun w => native_getAttributeNS w this namespace name).
Definition Element_setAttributeNS (this : Node) (namespace : option string)
           (name newValue : string) : M W unit :=
  native (Call_setAttributeNS this namespace name newValue)
         (native_setAttributeNS this namespace name newValue).
Definition Element_removeAttribute (this : Node) (name : string) : M W unit :=
  native (Call_removeAttribute this name) (native_removeAttribute this name).
Definition Element_removeAttributeNS (this : Node) (namespace : option string)
           (name : string) : M W unit :=
  native (Call_removeAttributeNS this namespace name)
         (native_removeAttributeNS this namespace name).
End Calls.
End Native.

Module Utilities.
Section Calls.
Context {W : Type} `{UtilitiesModule W}.

Definition isConnected (node : Node) : M W bool :=
  read (fun w => util_isConnected w node).
(** [isConnected(node)] where [node] may be [null]. *)
Definition isConnected_nullable (node : option Node) : M W bool :=
  match node with
  | Some n => isConnected n
  | None => attempt util_isConnected_null
  end.
Definition walkDeepDescendantElements (root : Node) : M W (list Node) :=
  read (fun w => util_walkDeepDescendantElements w root).
End Calls.
End Utilities.

Module internals.
Section Calls.
Context {W : Type} `{CustomElementInternals W}.

(** Modelled from the spec: CustomElementInternals.js is not among the
    sources.  Pushing stacks a new frame and popping removes the top one;
    the depth of the stack is the [frames] component of the state.  The
    callbacks that the outermost pop delivers run after the operation's own
    work and are not part of what the patch does. *)
Definition pushCEReactionsQueue : M W unit :=
  fun s => (Returns tt, mkState (world s) (S (frames s)) (log s ++ [EvPush])).
Definition popCEReactionsQueue : M W unit :=
  fun s => (Returns tt, mkState (world s) (pred (frames s)) (log s ++ [EvPop])).

Definition connectTree (root : Node) : M W unit :=
  engine (EvConnectTree root) (on_connectTree root).
Definition disconnectTree (root : Node) : M W unit :=
  engine (EvDisconnectTree root) (on_disconnectTree root).
Definition patchTree (root : Node) : M W unit :=
  engine (EvPatchTree root) (on_patchTree root).
Definition patchAndUpgradeTree (root : Node) : M W unit :=
  engine (EvPatchAndUpgradeTree root) (on_patchAndUpgradeTree root).
Definition attributeChangedCallback (element : Node) (name : string)
           (oldValue newValue namespace : option string) : M W unit :=
  engine (EvAttributeChanged element name oldValue newValue namespace)
         (on_attributeChangedCallback element name oldValue newValue namespace).
Definition disconnectedCallback (element : Node) : M W unit :=
  engine (EvDisconnected element) (on_disconnectedCallback element).
End Calls.
End internals.

(** [x instanceof DocumentFragment], [x instanceof Element], and
    [x.nodeType === Node.TEXT_NODE]. *)
Definition instanceofDocumentFragment {W} `{Dom W} (w : W) (n : Node) : bool :=
  NodeKind_eqb (nodeKind w n) DocumentFragmentNode.
Definition instanceofElement {W} `{Dom W} (w : W) (n : Node) : bool :=
  NodeKind_eqb (nodeKind w n) ElementNode.
Definition isTextNode {W} `{Dom W} (w : W) (n : Node) : bool :=
  NodeKind_eqb (nodeKind w n) TextNode.

(** ** Patch/Node.js *)

Module PatchNode.
Section Patches.
Context {W : Type} `{Dom W} `{NativeMethods W} `{UtilitiesModule W}
        `{CustomElementInternals W}.

Definition insertBefore (this node : Node) (refNode : option Node) : M W Node :=
  internals.pushCEReactionsQueue ;;
  isFragment <- read (fun w => instanceofDocumentFragment w node) ;;
  if isFragment then
    thisConnected <- Utilities.isConnected this ;;
    when thisConnected (internals.connectTree node) ;;
    result <- Native.Node_insertBefore this node refNode ;;
    internals.popCEReactionsQueue ;;
    ret result
  else
    nodeIsElement <- read (fun w => instanceofElement w node) ;;
    wasConnected <- read (fun w => nodeIsElement && util_isConnected w node) ;;
    when wasConnected (internals.disconnectTree node) ;;
    nativeResult <- Native.Node_insertBefore this node refNode ;;
    nowConnected <- read (fun w => nodeIsElement && util_isConnected w node) ;;
    when nowConnected (internals.connectTree node) ;;
    internals.popCEReactionsQueue ;;
    ret nativeResult.

Definition appendChild (this node : Node) : M W Node :=
  internals.pushCEReactionsQueue ;;
  isFragment <- read (fun w => instanceofDocumentFragment w node) ;;
  if isFragment then
    thisConnected <- Utilities.isConnected this ;;
    when thisConnected (internals.connectTree node) ;;
    result <- Native.Node_appendChild this node ;;
    internals.popCEReactionsQueue ;;
    ret result
  else
    nodeIsElement <- read (fun w => instanceofElement w node) ;;
    wasConnected <- read (fun w => nodeIsElement && util_isConnected w node) ;;
    when wasConnected (internals.disconnectTree node) ;;
    nativeResult <- Native.Node_appendChild this node ;;
    nowConnected <- read (fun w => nodeIsElement && util_isConnected w node) ;;
    when nowConnected (internals.connectTree node) ;;
    internals.popCEReactionsQueue ;;
    ret nativeResult.

(** [this.ownerDocument.__CE_registry]; the read throws when
    [ownerDocument] is [null]. *)
Definition ownerDocument_CE_registry (this : Node) : M W bool :=
  doc <- read (fun w => ownerDocument w this) ;;
  match doc with
  | Some d => read (fun w => __CE_registry w d)
  | None => throw (TypeError "Cannot read properties of null")
  end.

Definition cloneNode (this : Node) (deep : bool) : M W Node :=
  internals.pushCEReactionsQueue ;;
  clone <- Native.Node_cloneNode this deep ;;
  registry <- ownerDocument_CE_registry this ;;
  (if negb registry
   then internals.patchTree clone
   else internals.patchAndUpgradeTree clone) ;;
  internals.popCEReactionsQueue ;;
  ret clone.

Definition removeChild (this node : Node) : M W Node :=
  internals.pushCEReactionsQueue ;;
  wasConnected <- read (fun w => instanceofElement w node && util_isConnected w node) ;;
  when wasConnected (internals.disconnectTree node) ;;
  result <- Native.Node_removeChild this node ;;
  internals.popCEReactionsQueue ;;
  ret result.

Definition replaceChild (this nodeToInsert nodeToRemove : Node) : M W Node :=
  internals.pushCEReactionsQueue ;;
  thisIsConnected <- Utilities.isConnected this ;;
  isFragment <- read (fun w => instanceofDocumentFragment w nodeToInsert) ;;
  if isFragment then
    when thisIsConnected
         (internals.disconnectTree nodeToRemove ;;
          internals.connectTree nodeToInsert) ;;
    result <- Native.Node_replaceChild this nodeToInsert nodeToRemove ;;
    internals.popCEReactionsQueue ;;
    ret result
  else
    when thisIsConnected (internals.disconnectTree nodeToRemove) ;;
    insertIsElement <- read (fun w => instanceofElement w nodeToInsert) ;;
    when insertIsElement
         (insertConnected <- Utilities.isConnected nodeToInsert ;;
          when insertConnected (internals.disconnectTree nodeToInsert) ;;
          when thisIsConnected (internals.connectTree nodeToInsert)) ;;
    result <- Native.Node_replaceChild this nodeToInsert nodeToRemove ;;
    internals.popCEReactionsQueue ;;
    ret result.

(** The loop of the [textContent] setter,
    [for (let child = this.firstChild; child; child = child.nextSibling)];
    it reads [nextSibling] after [disconnectTree] has run, so it is
    bounded by fuel. *)
Fixpoint disconnectChildren (fuel : nat) (child : option Node) : M W unit :=
  match child with
  | None => ret tt
  | Some c =>
      match fuel with
      | O => diverge
      | S fuel' =>
          internals.disconnectTree c ;;
          next <- read (fun w => nextSibling w c) ;;
          disconnectChildren fuel' next
      end
  end.

(** The setter installed by [patch_textContent(destination, baseDescriptor)]. *)
Definition patch_textContent (baseDescriptor : Descriptor W) (fuel : nat)
           (this : Node) (assignedValue : string) : M W unit :=
  internals.pushCEReactionsQueue ;;
  isText <- read (fun w => isTextNode w this) ;;
  if isText then
    native (Call_set "textContent" this assignedValue)
           (descriptor_set baseDescriptor this assignedValue) ;;
    internals.popCEReactionsQueue
  else
    thisConnected <- Utilities.isConnected this ;;
    when thisConnected
         (first <- read (fun w => firstChild w this) ;;
          disconnectChildren fuel first) ;;
    native (Call_set "textContent" this assignedValue)
           (descriptor_set baseDescriptor this assignedValue) ;;
    internals.popCEReactionsQueue.
End Patches.
End PatchNode.

(** ** Patch/Element.js *)

(** [String.prototype.toLowerCase], on the ASCII strings of this model. *)
Definition toLowerCase_ascii (c : ascii) : ascii :=
  let n := nat_of_ascii c in
  if ((65 <=? n) && (n <=? 90))%nat then ascii_of_nat (n + 32) else c.

Fixpoint toLowerCase (s : string) : string :=
  match s with
  | EmptyString => EmptyString
  | String c rest => String (toLowerCase_ascii c) (toLowerCase rest)
  end.

(** The properties memoized by the HTML setter before it calls the native
    setter, handed to the patch callback as one object. *)
Record Memo := {
  memo_parentNode : option Node;
  memo_previousSibling : option Node;
  memo_nextSibling : option Node
}.

Module PatchElement.
Section Patches.
Context {W : Type} `{Dom W} `{NativeMethods W} `{UtilitiesModule W}
        `{CustomElementInternals W}.

(** [for (let i = 0; i < removedElements.length; i++)] of the HTML setter. *)
Fixpoint notifyRemoved (removedElements : list Node) : M W unit :=
  match removedElements with
  | [] => ret tt
  | element :: rest =>
      state <- read (fun w => __CE_state w element) ;;
      when (CEState_eqb state custom) (internals.disconnectedCallback element) ;;
      notifyRemoved rest
  end.

(** [this.ownerDocument.__CE_hasRegistry] *)
Definition ownerDocument_CE_hasRegistry (this : Node) : M W bool :=
  doc <- read (fun w => ownerDocument w this) ;;
  match doc with
  | Some d => read (fun w => __CE_hasRegistry w d)
  | None => throw (TypeError "Cannot read properties of null")
  end.

(** The setter installed by
    [patch_HTMLsetter(destination, property, baseDescriptor, patchCallback)]. *)
Definition patch_HTMLsetter (property : string) (baseDescriptor : Descriptor W)
           (patchCallback : Node -> (Node -> M W unit) -> Memo -> M W unit)
           (this : Node) (htmlString : string) : M W string :=
  isConnected <- Utilities.isConnected this ;;
  removedElements <-
    (if isConnected : bool then
       walked <- Utilities.walkDeepDescendantElements this ;;
       ret (Some (filter (fun element => negb (element =? this)%nat) walked))
     else ret None) ;;
  parentNode <- read (fun w => parentNode w this) ;;
  previousSibling <- read (fun w => previousSibling w this) ;;
  nextSibling <- read (fun w => nextSibling w this) ;;
  native (Call_set property this htmlString)
         (descriptor_set baseDescriptor this htmlString) ;;
  match removedElements with
  | Some elements => notifyRemoved elements
  | None => ret tt
  end ;;
  hasRegistry <- ownerDocument_CE_hasRegistry this ;;
  (if negb hasRegistry
   then patchCallback this internals.patchTree
                      (Build_Memo parentNode previousSibling nextSibling)
   else patchCallback this internals.patchAndUpgradeTree
                      (Build_Memo parentNode previousSibling nextSibling)) ;;
  ret htmlString.

Definition patch_innerHTML (baseDescriptor : Descriptor W)
  : Node -> string -> M W string :=
  patch_HTMLsetter "innerHTML" baseDescriptor
    (fun node patchFunction _ => patchFunction node).

(** [while (sibling !== null && sibling !== nextSibling)] of the
    [outerHTML] callback; [sibling.nextSibling] is read after the patch
    function has run, so the loop is bounded by fuel. *)
Fixpoint patchSiblings (fuel : nat) (patchFunction : Node -> M W unit)
         (sibling stop : option Node) : M W unit :=
  match sibling with
  | None => ret tt
  | Some sib =>
      if node_eqb sibling stop then ret tt
      else
        match fuel with
        | O => diverge
        | S fuel' =>
            patchFunction sib ;;
            next <- read (fun w => nextSibling w sib) ;;
            patchSiblings fuel' patchFunction next stop
        end
  end.

Definition outerHTML_noParent : string :=
  "Failed to set the 'outerHTML' property on 'Element': This element has no parent node.".

Definition outerHTML_patchCallback (fuel : nat) (node : Node)
           (patchFunction : Node -> M W unit) (memo : Memo) : M W unit :=
  match memo_parentNode memo with
  | None => throw (Error outerHTML_noParent)
  | Some parentNode =>
      match memo_previousSibling memo, memo_nextSibling memo with
      | None, None => patchFunction parentNode
      | previousSibling, nextSibling_ =>
          sibling <-
            match previousSibling with
            | Some p =>
                afterPrevious <- read (fun w => nextSibling w p) ;;
                match afterPrevious with
                | Some x => ret (Some x)
                | None => read (fun w => firstChild w parentNode)
                end
            | None => read (fun w => firstChild w parentNode)
            end ;;
          patchSiblings fuel patchFunction sibling nextSibling_
      end
  end.

Definition patch_outerHTML (baseDescriptor : Descriptor W) (fuel : nat)
  : Node -> string -> M W string :=
  patch_HTMLsetter "outerHTML" baseDescriptor (outerHTML_patchCallback fuel).

Definition setAttribute (this : Node) (name newValue : string) : M W unit :=
  state <- read (fun w => __CE_state w this) ;;
  if negb (CEState_eqb state custom) then
    Native.Element_setAttribute this name newValue
  else
    oldValue <- Native.Element_getAttribute this name ;;
    Native.Element_setAttribute this name newValue ;;
    newValue <- Native.Element_getAttribute this name ;;
    internals.attributeChangedCallback this name oldValue newValue None.

Definition setAttributeNS (this : Node) (namespace : option string)
           (name newValue : string) : M W unit :=
  state <- read (fun w => __CE_state w this) ;;
  if negb (CEState_eqb state custom) then
    Native.Element_setAttributeNS this namespace name newValue
  else
    oldValue <- Native.Element_getAttributeNS this namespace name ;;
    Native.Element_setAttributeNS this namespace name newValue ;;
    newValue <- Native.Element_getAttributeNS this namespace name ;;
    internals.attributeChangedCallback this name oldValue newValue namespace.

Definition removeAttribute (this : Node) (name : string) : M W unit :=
  state <- read (fun w => __CE_state w this) ;;
  if negb (CEState_eqb state custom) then
    Native.Element_removeAttribute this name
  else
    oldValue <- Native.Element_getAttribute this name ;;
    Native.Element_removeAttribute this name ;;
    when (negb (value_eqb oldValue None))
         (internals.attributeChangedCallback this name oldValue None None).

Definition removeAttributeNS (this : Node) (namespace : option string)
           (name : string) : M W unit :=
  state <- read (fun w => __CE_state w this) ;;
  if negb (CEState_eqb state custom) then
    Native.Element_removeAttributeNS this namespace name
  else
    oldValue <- Native.Element_getAttributeNS this namespace name ;;
    Native.Element_removeAttributeNS this namespace name ;;
    newValue <- Native.Element_getAttributeNS this namespace name ;;
    when (negb (value_eqb oldValue newValue))
         (internals.attributeChangedCallback this name oldValue newValue namespace).

(** The method installed by [patch_insertAdjacentElement(destination,
    baseMethod)].  The native method returns the inserted element, or [null]
    when it inserted nothing; the cast of its result to a non-null element
    is an annotation only, and the result goes to [Utilities.isConnected]
    as it is. *)
Definition patch_insertAdjacentElement
           (baseMethod : Node -> string -> Node -> W -> Exn + option Node * W)
           (this : Node) (position : string) (element : Node) : M W (option Node) :=
  wasConnected <- Utilities.isConnected element ;;
  insertedElement <- native (Call_insertAdjacentElement this position element)
                            (baseMethod this position element) ;;
  when wasConnected (internals.disconnectTree element) ;;
  nowConnected <- Utilities.isConnected_nullable insertedElement ;;
  when nowConnected (internals.connectTree element) ;;
  ret insertedElement.

(** First loop of [upgradeNodesInRange]:
    [for (let node = start; node !== end; node = node.nextSibling)].
    A [null] node that is not [end] is pushed and then dereferenced, which
    throws.  Nothing changes the world during the loop; fuel bounds the
    length of the sibling chain. *)
Fixpoint rangeNodes (fuel : nat) (node end_ : option Node) : M W (list Node) :=
  if node_eqb node end_ then ret []
  else
    match fuel with
    | O => diverge
    | S fuel' =>
        match node with
        | None => throw (TypeError "Cannot read properties of null (reading 'nextSibling')")
        | Some n =>
            next <- read (fun w => nextSibling w n) ;;
            rest <- rangeNodes fuel' next end_ ;;
            ret (n :: rest)
        end
    end.

(** Second loop: [for (let i = 0; i < nodes.length; i++)]. *)
Fixpoint upgradeEach (nodes : list Node) : M W unit :=
  match nodes with
  | [] => ret tt
  | node :: rest => internals.patchAndUpgradeTree node ;; upgradeEach rest
  end.

Definition upgradeNodesInRange (fuel : nat) (start end_ : option Node) : M W unit :=
  nodes <- rangeNodes fuel start end_ ;;
  upgradeEach nodes.

Definition insertAdjacentHTML_badPosition (position : string) : string :=
  "The value provided (" ++ position ++ ") is "
  ++ "not one of 'beforebegin', 'afterbegin', 'beforeend', or 'afterend'.".

(** [this.parentNode.firstChild] *)
Definition parentNode_firstChild (this : Node) : M W (option Node) :=
  parent <- read (fun w => parentNode w this) ;;
  match parent with
  | Some p => read (fun w => firstChild w p)
  | None => throw (TypeError "Cannot read properties of null (reading 'firstChild')")
  end.

(** The method installed by [patch_insertAdjacentHTML(destination,
    baseMethod)]. *)
Definition patch_insertAdjacentHTML
           (baseMethod : Node -> string -> string -> W -> Exn + unit * W)
           (fuel : nat) (this : Node) (position text : string) : M W unit :=
  let position := toLowerCase position in
  if (position =? "beforebegin")%string then
    marker <- read (fun w => previousSibling w this) ;;
    native (Call_insertAdjacentHTML this position text) (baseMethod this position text) ;;
    start <- match marker with
             | Some m => ret (Some m)
             | None => parentNode_firstChild this
             end ;;
    upgradeNodesInRange fuel start (Some this)
  else if (position =? "afterbegin")%string then
    marker <- read (fun w => firstChild w this) ;;
    native (Call_insertAdjacentHTML this position text) (baseMethod this position text) ;;
    start <- read (fun w => firstChild w this) ;;
    upgradeNodesInRange fuel start marker
  else if (position =? "beforeend")%string then
    marker <- read (fun w => lastChild w this) ;;
    native (Call_insertAdjacentHTML this position text) (baseMethod this position text) ;;
    start <- match marker with
             | Some m => ret (Some m)
             | None => read (fun w => firstChild w this)
             end ;;
    upgradeNodesInRange fuel start None
  else if (position =? "afterend")%string then
    marker <- read (fun w => nextSibling w this) ;;
    native (Call_insertAdjacentHTML this position text) (baseMethod this position text) ;;
    start <- read (fun w => nextSibling w this) ;;
    upgradeNodesInRange fuel start marker
  else
    throw (SyntaxError (insertAdjacentHTML_badPosition position)).
End Patches.
End PatchElement.

(** ** A small browser

    One implementation of the four interfaces: a store of nodes with parent
    and child links, attribute lists and custom-element state.  Markup is not
    parsed: the HTML-string natives treat their argument as character data
    (one text node, or nothing for the empty string), and no custom-element
    definition is registered, so nothing is ever upgraded. *)

Module Browser.

(** A recorded attribute change: name, old value, new value, namespace. *)
Definition Recorded : Type := string * option string * option string * option string.

Inductive Reaction :=
| Connected (element : Node)
| Disconnected (element : Node)
| AttributeChanged (element : Node) (entry : Recorded).

Record NodeData := {
  kind : NodeKind;
  parent : option Node;
  children : list Node;
  attributes : list (option string * string * string);
  state : CEState;
  document : option Node;
  registry : bool;
  hasRegistry : bool;
  backlog : list Recorded
}.

Record World := {
  nodes : list NodeData;
  reactions : list Reaction
}.

Definition blank (k : NodeKind) (doc : option Node) : NodeData :=
  {| kind := k; parent := None; children := []; attributes := [];
     state := uncustomized; document := doc; registry := false;
     hasRegistry := false; backlog := [] |}.

Definition data (w : World) (n : Node) : NodeData :=
  nth n (nodes w) (blank CommentNode None).

Fixpoint replace_nth {A} (i : nat) (x : A) (l : list A) : list A :=
  match l, i with
  | [], _ => []
  | _ :: t, O => x :: t
  | h :: t, S j => h :: replace_nth j x t
  end.

Definition update (n : Node) (f : NodeData -> NodeData) (w : World) : World :=
  {| nodes := replace_nth n (f (data w n)) (nodes w); reactions := reactions w |}.

Definition with_parent (p : option Node) (d : NodeData) : NodeData :=
  {| kind := kind d; parent := p; children := children d; attributes := attributes d;
     state := state d; document := document d; registry := registry d;
     hasRegistry := hasRegistry d; backlog := backlog d |}.
Definition with_children (c : list Node) (d : NodeData) : NodeData :=
  {| kind := kind d; parent := parent d; children := c; attributes := attributes d;
     state := state d; document := document d; registry := registry d;
     hasRegistry := hasRegistry d; backlog := backlog d |}.
Definition with_attributes (a : list (option string * string * string))
           (d : NodeData) : NodeData :=
  {| kind := kind d; parent := parent d; children := children d; attributes := a;
     state := state d; document := document d; registry := registry d;
     hasRegistry := hasRegistry d; backlog := backlog d |}.
Definition with_backlog (b : list Recorded) (d : NodeData) : NodeData :=
  {| kind := kind d; parent := parent d; children := children d;
     attributes := attributes d; state := state d; document := document d;
     registry := registry d; hasRegistry := hasRegistry d; backlog := b |}.

Definition enqueue (r : Reaction) (w : World) : World :=
  {| nodes := nodes w; reactions := reactions w ++ [r] |}.

(** *** Navigation *)

Fixpoint after (n : Node) (l : list Node) : option Node :=
  match l with
  | [] => None
  | x :: t => if (x =? n)%nat then hd_error t else after n t
  end.

Fixpoint before (n : Node) (l : list Node) : option Node :=
  match l with
  | x :: ((y :: _) as t) => if (y =? n)%nat then Some x else before n t
  | _ => None
  end.

Definition siblings (w : World) (n : Node) : list Node :=
  match parent (data w n) with
  | Some p => children (data w p)
  | None => []
  end.

#[export] Instance dom : Dom World := {
  nodeKind w n := kind (data w n);
  parentNode w n := parent (data w n);
  firstChild w n := hd_error (children (data w n));
  lastChild w n := hd_error (rev (children (data w n)));
  previousSibling w n := before n (siblings w n);
  nextSibling w n := after n (siblings w n);
  ownerDocument w n := document (data w n);
  __CE_state w n := state (data w n);
  __CE_registry w n := registry (data w n);
  __CE_hasRegistry w n := hasRegistry (data w n)
}.

(** *** Utilities *)

(** Connected: the root ancestor is a document. *)
Fixpoint rooted (fuel : nat) (w : World) (n : Node) : bool :=
  match kind (data w n) with
  | DocumentNode => true
  | _ =>
      match fuel, parent (data w n) with
      | S fuel', Some p => rooted fuel' w p
      | _, _ => false
      end
  end.

(** The elements of a subtree in document order, the root included. *)
Fixpoint elements (fuel : nat) (w : World) (n : Node) : list Node :=
  match fuel with
  | O => []
  | S fuel' =>
      (if NodeKind_eqb (kind (data w n)) ElementNode then [n] else [])
      ++ flat_map (elements fuel' w) (children (data w n))
  end.

#[export] Instance utilities : UtilitiesModule World := {
  util_isConnected w n := rooted (List.length (nodes w)) w n;
  util_isConnected_null _ :=
    inl (TypeError "Cannot read properties of null (reading 'isConnected')");
  util_walkDeepDescendantElements w n := elements (S (List.length (nodes w))) w n
}.

(** *** Native methods *)

Definition detach (n : Node) (w : World) : World :=
  match parent (data w n) with
  | Some p =>
      update n (with_parent None)
        (update p (with_children
                     (filter (fun c => negb (c =? n)%nat) (children (data w p)))) w)
  | None => w
  end.

Fixpoint place (n : Node) (ref : option Node) (l : list Node) : list Node :=
  match ref, l with
  | Some r, x :: t => if (x =? r)%nat then n :: x :: t else x :: place n ref t
  | _, _ => l ++ [n]
  end.

Definition attach (p n : Node) (ref : option Node) (w : World) : World :=
  let w1 := detach n w in
  update n (with_parent (Some p))
    (update p (with_children (place n ref (children (data w1 p)))) w1).

Fixpoint ancestor (fuel : nat) (w : World) (a n : Node) : bool :=
  (a =? n)%nat ||
  match fuel, parent (data w n) with
  | S fuel', Some p => ancestor fuel' w a p
  | _, _ => false
  end.

Definition insert (this node : Node) (ref : option Node) (w : World)
  : Exn + Node * World :=
  if ancestor (List.length (nodes w)) w node this then
    inl (DOMException "HierarchyRequestError")
  else if match ref with
          | Some r => negb (node_eqb (parent (data w r)) (Some this))
          | None => false
          end then
    inl (DOMException "NotFoundError")
  else if NodeKind_eqb (kind (data w node)) DocumentFragmentNode then
    inr (node, fold_left (fun w' c => attach this c ref w') (children (data w node)) w)
  else
    inr (node, attach this node (if node_eqb ref (Some node)
                                 then after node (siblings w node) else ref) w).

Definition remove (this node : Node) (w : World) : Exn + Node * World :=
  if node_eqb (parent (data w node)) (Some this) then inr (node, detach node w)
  else inl (DOMException "NotFoundError").

Definition replace (this nodeToInsert nodeToRemove : Node) (w : World)
  : Exn + Node * World :=
  if negb (node_eqb (parent (data w nodeToRemove)) (Some this)) then
    inl (DOMException "NotFoundError")
  else if (nodeToInsert =? nodeToRemove)%nat then inr (nodeToRemove, w)
  else
    match insert this nodeToInsert (Some nodeToRemove) w with
    | inr (_, w') => inr (nodeToRemove, detach nodeToRemove w')
    | inl e => inl e
    end.

Definition create (d : NodeData) (w : World) : Node * World :=
  (List.length (nodes w), {| nodes := nodes w ++ [d]; reactions := reactions w |}).

Fixpoint clone (fuel : nat) (deep : bool) (n : Node) (w : World) : Node * World :=
  let (c, w1) := create {| kind := kind (data w n); parent := None; children := [];
                           attributes := attributes (data w n);
                           state := uncustomized; document := document (data w n);
                           registry := false; hasRegistry := false;
                           backlog := [] |} w in
  match fuel with
  | S fuel' =>
      if deep then
        (c, fold_left (fun w' child =>
                         let (cc, w'') := clone fuel' deep child w' in
                         attach c cc None w'')
                      (children (data w n)) w1)
      else (c, w1)
  | O => (c, w1)
  end.

Definition key_eqb (ns : option string) (name : string)
           (a : option string * string * string) : bool :=
  value_eqb (fst (fst a)) ns && (snd (fst a) =? name)%string.

Definition getNS (w : World) (n : Node) (ns : option string) (name : string)
  : option string :=
  option_map snd (find (key_eqb ns name) (attributes (data w n))).

Definition setNS (n : Node) (ns : option string) (name value : string) (w : World)
  : Exn + unit * World :=
  inr (tt, update n (fun d =>
             with_attributes
               (match find (key_eqb ns name) (attributes d) with
                | Some _ => map (fun a => if key_eqb ns name a then (ns, name, value) else a)
                                (attributes d)
                | None => attributes d ++ [(ns, name, value)]
                end) d) w).

Definition removeNS (n : Node) (ns : option string) (name : string) (w : World)
  : Exn + unit * World :=
  inr (tt, update n (fun d =>
             with_attributes
               (filter (fun a => negb (key_eqb ns name a)) (attributes d)) d) w).

(** The methods without a namespace go by the qualified name alone, as in
    the DOM: [getAttribute] answers for, [setAttribute] changes and
    [removeAttribute] removes the first attribute of the list that bears
    the name, whatever its namespace.  Prefixes are not modelled, so the
    qualified name of an attribute is its local name. *)
Definition name_eqb (name : string) (a : option string * string * string) : bool :=
  (snd (fst a) =? name)%string.

Fixpoint change_first {A} (p : A -> bool) (f : A -> A) (l : list A) : list A :=
  match l with
  | [] => []
  | a :: t => if p a then f a :: t else a :: change_first p f t
  end.

Fixpoint remove_first {A} (p : A -> bool) (l : list A) : list A :=
  match l with
  | [] => []
  | a :: t => if p a then t else a :: remove_first p t
  end.

Definition attribute (w : World) (n : Node) (name : string) : option string :=
  option_map snd (find (name_eqb name) (attributes (data w n))).

Definition set_attribute (n : Node) (name value : string) (w : World)
  : Exn + unit * World :=
  inr (tt, update n (fun d =>
             with_attributes
               (match find (name_eqb name) (attributes d) with
                | Some _ => change_first (name_eqb name)
                                         (fun a => (fst (fst a), name, value))
                                         (attributes d)
                | None => attributes d ++ [(None, name, value)]
                end) d) w).

Definition remove_attribute (n : Node) (name : string) (w : World)
  : Exn + unit * World :=
  inr (tt, update n (fun d =>
             with_attributes (remove_first (name_eqb name) (attributes d)) d) w).

#[export] Instance natives : NativeMethods World := {
  native_insertBefore := insert;
  native_appendChild this node := insert this node None;
  native_cloneNode this deep w := inr (clone (List.length (nodes w)) deep this w);
  native_removeChild := remove;
  native_replaceChild := replace;
  native_getAttribute := attribute;
  native_setAttribute := set_attribute;
  native_getAttributeNS := getNS;
  native_setAttributeNS := setNS;
  native_removeAttribute := remove_attribute;
  native_removeAttributeNS := removeNS
}.

(** Character data for a string: a new text node, or nothing. *)
Definition fragment (this : Node) (text : string) (w : World) : option Node * World :=
  if (text =? "")%string then (None, w)
  else let (t, w') := create (blank TextNode (document (data w this))) w in (Some t, w').

Definition clear (this : Node) (w : World) : World :=
  fold_left (fun w' c => detach c w') (children (data w this)) w.

Definition put (p : Node) (t : option Node) (ref : option Node) (w : World) : World :=
  match t with
  | Some n => attach p n ref w
  | None => w
  end.

Definition set_children (this : Node) (text : string) (w : World) : Exn + unit * World :=
  let (t, w') := fragment this text (clear this w) in
  inr (tt, put this t None w').

Definition Node_textContent : Descriptor World :=
  {| descriptor_set this text w :=
       match kind (data w this) with
       | TextNode | CommentNode => inr (tt, w)
       | _ => set_children this text w
       end |}.

Definition Element_innerHTML : Descriptor World :=
  {| descriptor_set := set_children |}.

Definition Element_outerHTML : Descriptor World :=
  {| descriptor_set this text w :=
       match parent (data w this) with
       | None => inr (tt, w)
       | Some p =>
           if NodeKind_eqb (kind (data w p)) DocumentNode then
             inl (DOMException "NoModificationAllowedError")
           else
             let (t, w') := fragment this text w in
             inr (tt, detach this (put p t (Some this) w'))
       end |}.

Definition adjacent {A} (this : Node) (position : string) (w : World)
           (k : Node -> option Node -> Exn + A) : Exn + A :=
  let outside (ref : option Node) :=
    match parent (data w this) with
    | Some p =>
        if NodeKind_eqb (kind (data w p)) DocumentNode then
          inl (DOMException "NoModificationAllowedError")
        else k p ref
    | None => inl (DOMException "NoModificationAllowedError")
    end in
  if (position =? "beforebegin")%string then outside (Some this)
  else if (position =? "afterbegin")%string then k this (hd_error (children (data w this)))
  else if (position =? "beforeend")%string then k this None
  else if (position =? "afterend")%string then outside (after this (siblings w this))
  else inl (SyntaxError "The value provided is not a valid position.").

Definition Element_insertAdjacentHTML (this : Node) (position text : string)
           (w : World) : Exn + unit * World :=
  adjacent this position w
    (fun p ref => let (t, w') := fragment this text w in inr (tt, put p t ref w')).

(** [insertAdjacentElement]: before or after a receiver that has no parent
    there is nowhere to insert; nothing is done and the result is [null]. *)
Definition Element_insertAdjacentElement (this : Node) (position : string)
           (element : Node) (w : World) : Exn + option Node * World :=
  let inserted (p : Node) (ref : option Node) :=
    match insert p element ref w with
    | inr (n, w') => inr (Some n, w')
    | inl e => inl e
    end in
  let position := toLowerCase position in
  if (position =? "beforebegin")%string then
    match parent (data w this) with
    | Some p => inserted p (Some this)
    | None => inr (None, w)
    end
  else if (position =? "afterbegin")%string then
    inserted this (hd_error (children (data w this)))
  else if (position =? "beforeend")%string then inserted this None
  else if (position =? "afterend")%string then
    match parent (data w this) with
    | Some p => inserted p (after this (siblings w this))
    | None => inr (None, w)
    end
  else inl (SyntaxError "The value provided is not a valid position.").

(** *** internals *)

(** Modelled from the spec: CustomElementInternals.js is not among the
    sources.  [disconnectTree] enqueues a disconnected reaction for every
    custom element of the subtree; [connectTree] enqueues a connected
    reaction for every custom element (no definition is registered, so
    there is no upgrade to attempt for the others); the attribute-change
    dispatch enqueues for a custom node, appends to the recorded-attribute
    backlog of an uncustomized or undefined node and discards for a failed
    one. *)
Definition custom_elements (w : World) (root : Node) : list Node :=
  filter (fun e => CEState_eqb (state (data w e)) custom)
         (util_walkDeepDescendantElements w root).

Definition dispatch (element : Node) (entry : Recorded) (w : World) : World :=
  match state (data w element) with
  | custom => enqueue (AttributeChanged element entry) w
  | uncustomized | undefined =>
      update element (fun d => with_backlog (backlog d ++ [entry]) d) w
  | failed => w
  end.

#[export] Instance engines : CustomElementInternals World := {
  on_connectTree root w :=
    fold_left (fun w' e => enqueue (Connected e) w') (custom_elements w root) w;
  on_disconnectTree root w :=
    fold_left (fun w' e => enqueue (Disconnected e) w') (custom_elements w root) w;
  on_patchTree _ w := w;
  on_patchAndUpgradeTree _ w := w;
  on_attributeChangedCallback element name oldValue newValue namespace :=
    dispatch element (name, oldValue, newValue, namespace);
  on_disconnectedCallback element := enqueue (Disconnected element)
}.

(** *** A page

    0 document (with a registry)
      1 <html>
        2 <x-a a="1">  custom
          4 <x-c>      custom
          5 <span>     uncustomized
        3 <x-b>        undefined
    6 <x-d>            custom, detached
    7 document fragment
      8 <x-e>          custom *)
Definition element (p : option Node) (c : list Node) (s : CEState)
           (a : list (option string * string * string)) : NodeData :=
  {| kind := ElementNode; parent := p; children := c; attributes := a; state := s;
     document := Some 0; registry := false; hasRegistry := false; backlog := [] |}.

Definition page : World :=
  {| nodes :=
       [ {| kind := DocumentNode; parent := None; children := [1]; attributes := [];
            state := uncustomized; document := None; registry := true;
            hasRegistry := true; backlog := [] |};
         element (Some 0) [2; 3] uncustomized [];
         element (Some 1) [4; 5] custom [(None, "a", "1")];
         element (Some 1) [] undefined [];
         element (Some 2) [] custom [];
         element (Some 2) [] uncustomized [];
         element None [] custom [];
         {| kind := DocumentFragmentNode; parent := None; children := [8];
            attributes := []; state := uncustomized; document := Some 0;
            registry := false; hasRegistry := false; backlog := [] |};
         element (Some 7) [] custom [] ];
     reactions := [] |}.

Definition start : State World := mkState page 0 [].

(** The page once a script has called [setAttributeNS("urn:a", "x", "1")]
    and [setAttributeNS("urn:b", "x", "2")] on element 4, which now has two
    attributes of one name. *)
Definition shared_name : State World :=
  exec (PatchElement.setAttributeNS 4 (Some "urn:b") "x" "2")
       (exec (PatchElement.setAttributeNS 4 (Some "urn:a") "x" "1") start).
End Browser.

(** ** The patched operations as one family *)

Section Operations.
Context {W : Type} `{Dom W} `{NativeMethods W} `{UtilitiesModule W}
        `{CustomElementInternals W}.

(** A call of a patched operation, with its receiver and arguments.  The
    [patch_*] installers are given with the native descriptor or method
    they wrap. *)
Inductive Operation :=
| Op_insertBefore (this node : Node) (refNode : option Node)
| Op_appendChild (this node : Node)
| Op_removeChild (this node : Node)
| Op_replaceChild (this nodeToInsert nodeToRemove : Node)
| Op_cloneNode (this : Node) (deep : bool)
| Op_textContent (baseDescriptor : Descriptor W) (fuel : nat)
                 (this : Node) (assignedValue : string)
| Op_setAttribute (this : Node) (name newValue : string)
| Op_setAttributeNS (this : Node) (namespace : option string) (name newValue : string)
| Op_removeAttribute (this : Node) (name : string)
| Op_removeAttributeNS (this : Node) (namespace : option string) (name : string)
| Op_insertAdjacentElement
    (baseMethod : Node -> string -> Node -> W -> Exn + option Node * W)
                           (this : Node) (position : string) (element : Node)
| Op_insertAdjacentHTML (baseMethod : Node -> string -> string -> W -> Exn + unit * W)
                        (fuel : nat) (this : Node) (position text : string)
| Op_innerHTML (baseDescriptor : Descriptor W) (this : Node) (htmlString : string)
| Op_outerHTML (baseDescriptor : Descriptor W) (fuel : nat)
               (this : Node) (htmlString : string).

(** Run a program for its effect. *)
Definition discard {A} (m : M W A) : M W unit := m ;; ret tt.

Definition perform (op : Operation) : M W unit :=
  match op with
  | Op_insertBefore this node refNode => discard (PatchNode.insertBefore this node refNode)
  | Op_appendChild this node => discard (PatchNode.appendChild this node)
  | Op_removeChild this node => discard (PatchNode.removeChild this node)
  | Op_replaceChild this nodeToInsert nodeToRemove =>
      discard (PatchNode.replaceChild this nodeToInsert nodeToRemove)
  | Op_cloneNode this deep => discard (PatchNode.cloneNode this deep)
  | Op_textContent baseDescriptor fuel this assignedValue =>
      PatchNode.patch_textContent baseDescriptor fuel this assignedValue
  | Op_setAttribute this name newValue => PatchElement.setAttribute this name newValue
  | Op_setAttributeNS this namespace name newValue =>
      PatchElement.setAttributeNS this namespace name newValue
  | Op_removeAttribute this name => PatchElement.removeAttribute this name
  | Op_removeAttributeNS this namespace name =>
      PatchElement.removeAttributeNS this namespace name
  | Op_insertAdjacentElement baseMethod this position element =>
      discard (PatchElement.patch_insertAdjacentElement baseMethod this position element)
  | Op_insertAdjacentHTML baseMethod fuel this position text =>
      PatchElement.patch_insertAdjacentHTML baseMethod fuel this position text
  | Op_innerHTML baseDescriptor this htmlString =>
      discard (PatchElement.patch_innerHTML baseDescriptor this htmlString)
  | Op_outerHTML baseDescriptor fuel this htmlString =>
      discard (PatchElement.patch_outerHTML baseDescriptor fuel this htmlString)
  end.

(** The operations patched by Patch/Node.js. *)
Definition isNodeOperation (op : Operation) : bool :=
  match op with
  | Op_insertBefore _ _ _ | Op_appendChild _ _ | Op_removeChild _ _
  | Op_replaceChild _ _ _ | Op_cloneNode _ _ | Op_textContent _ _ _ _ => true
  | _ => false
  end.

(** The four of them that move a node given as argument. *)
Definition isStructuralNodeOperation (op : Operation) : bool :=
  match op with
  | Op_insertBefore _ _ _ | Op_appendChild _ _ | Op_removeChild _ _
  | Op_replaceChild _ _ _ => true
  | _ => false
  end.

(** Where an operation may place a [connectTree] call: after the native
    mutation when an insertion is given a node that is not a
    DocumentFragment; before it in the DocumentFragment branch of the two
    insertions and in [replaceChild]; nowhere in [removeChild]. *)
Definition connectsAfterNative (w : W) (op : Operation) : bool :=
  match op with
  | Op_insertBefore _ node _ | Op_appendChild _ node =>
      negb (instanceofDocumentFragment w node)
  | _ => false
  end.

Definition connectsBeforeNative (w : W) (op : Operation) : bool :=
  match op with
  | Op_insertBefore _ node _ | Op_appendChild _ node => instanceofDocumentFragment w node
  | Op_replaceChild _ _ _ => true
  | _ => false
  end.

(** The world in which the HTML setter finds itself after its
    notification loop, and the elements the loop has notified: an element
    is notified when its state is [custom] at its turn. *)
Fixpoint notifiedWorld (removedElements : list Node) (w : W) : W :=
  match removedElements with
  | [] => w
  | element :: rest =>
      notifiedWorld rest
        (if CEState_eqb (__CE_state w element) custom
         then on_disconnectedCallback element w else w)
  end.

Fixpoint notified (removedElements : list Node) (w : W) : list Node :=
  match removedElements with
  | [] => []
  | element :: rest =>
      if CEState_eqb (__CE_state w element) custom
      then element :: notified rest (on_disconnectedCallback element w)
      else notified rest w
  end.

(** The siblings from [start] up to, and excluding, [end_], as the world
    [w] links them. *)
Inductive SiblingRange (w : W) : option Node -> option Node -> list Node -> Prop :=
| range_done : forall start end_,
    node_eqb start end_ = true -> SiblingRange w start end_ []
| range_next : forall n end_ rest,
    node_eqb (Some n) end_ = false ->
    SiblingRange w (nextSibling w n) end_ rest ->
    SiblingRange w (Some n) end_ (n :: rest).
End Operations.

(** ** Reading a trace *)

Definition isFrameEvent (e : Event) : bool :=
  match e with EvPush | EvPop => true | _ => false end.

Definition notFrameEvent (e : Event) : bool := negb (isFrameEvent e).

Definition isConnectTree (e : Event) : bool :=
  match e with EvConnectTree _ => true | _ => false end.

Definition isDisconnectTree (e : Event) : bool :=
  match e with EvDisconnectTree _ => true | _ => false end.

Definition isTreeEngine (e : Event) : bool := isConnectTree e || isDisconnectTree e.

Definition isPatchTree (e : Event) : bool :=
  match e with EvPatchTree _ => true | _ => false end.

Definition isPatchAndUpgradeTree (e : Event) : bool :=
  match e with EvPatchAndUpgradeTree _ => true | _ => false end.

Definition isDisconnected (e : Event) : bool :=
  match e with EvDisconnected _ => true | _ => false end.

(** The elements handed to [disconnectedCallback], in order. *)
Definition disconnectedCalls (t : list Event) : list Node :=
  flat_map (fun e => match e with EvDisconnected n => [n] | _ => [] end) t.

(** A trace that opens with a push, closes with a pop, and neither pushes
    nor pops in between. *)
Definition framedTrace (t : list Event) : bool :=
  match t with
  | EvPush :: rest =>
      match rev rest with
      | EvPop :: middle => forallb notFrameEvent middle
      | _ => false
      end
  | _ => false
  end.

(** No [connectTree] or [disconnectTree] call before the first native call. *)
Fixpoint nativeFirst (t : list Event) : bool :=
  match t with
  | [] => true
  | EvNative _ :: _ => true
  | e :: rest => negb (isTreeEngine e) && nativeFirst rest
  end.

(** The trace an operation adds to the log, and what it means for an
    operation to be bracketed by a frame. *)
Definition added {W A} (m : M W A) (s : State W) (t : list Event) : Prop :=
  log (exec m s) = log s ++ t.

Definition framed {W A} (m : M W A) (s : State W) : Prop :=
  exists t, added m s t /\ framedTrace t = true /\ frames (exec m s) = frames s.

Definition unframed {W A} (m : M W A) (s : State W) : Prop :=
  exists t, added m s t /\ forallb notFrameEvent t = true /\ frames (exec m s) = frames s.

(** A position accepted by [insertAdjacentHTML]: one of the four values
    once lower-cased, as the patch compares it. *)
Definition validPosition (position : string) : bool :=
  let position := toLowerCase position in
  (position =? "beforebegin")%string || (position =? "afterbegin")%string
  || (position =? "beforeend")%string || (position =? "afterend")%string.

(** A second [internals] for the small browser, whose [patchAndUpgradeTree]
    runs a constructor that removes the next sibling of the node it
    upgrades. *)
Module Unruly.
Import Browser.

Definition removeNextSibling (root : Node) (w : World) : World :=
  match nextSibling w root with
  | Some next => detach next w
  | None => w
  end.

Definition engines : CustomElementInternals World := {|
  on_connectTree := @on_connectTree _ Browser.engines;
  on_disconnectTree := @on_disconnectTree _ Browser.engines;
  on_patchTree := @on_patchTree _ Browser.engines;
  on_patchAndUpgradeTree := removeNextSibling;
  on_attributeChangedCallback := @on_attributeChangedCallback _ Browser.engines;
  on_disconnectedCallback := @on_disconnectedCallback _ Browser.engines
|}.
End Unruly.

(** ** Statements about connectedness and attribute values *)

(** C3 as the specification words it, for a node moved by an operation that
    left the trace [t]: [disconnectTree] exactly when the node was connected
    before, [connectTree] exactly when it is connected after, and neither
    when its connectedness did not change. *)
Definition connectednessClaim (before after : bool) (node : Node) (t : list Event)
  : Prop :=
  (In (EvDisconnectTree node) t <-> before = true)
  /\ (In (EvConnectTree node) t <-> after = true)
  /\ (before = after ->
      ~ In (EvDisconnectTree node) t /\ ~ In (EvConnectTree node) t).

(** The part of it that the insertions and removals keep: the two calls,
    each exactly when its test holds, [disconnectTree] first. *)
Definition treeCalls (before after : bool) (node : Node) : list Event * list Event :=
  (if before then [EvDisconnectTree node] else [],
   if after then [EvConnectTree node] else []).

Section Readings.
Context {W : Type} `{Dom W} `{NativeMethods W} `{UtilitiesModule W}
        `{CustomElementInternals W}.

(** [node instanceof Element && Utilities.isConnected(node)] *)
Definition connectedElement (w : W) (node : Node) : bool :=
  instanceofElement w node && util_isConnected w node.

(** The elements the HTML setter collects before it calls the native
    setter: the elements of the subtree other than the target when the
    target is connected, none otherwise. *)
Definition removedBy (w : W) (this : Node) : list Node :=
  if util_isConnected w this
  then filter (fun element => negb (element =? this)%nat)
              (util_walkDeepDescendantElements w this)
  else [].

(** The world after the nodes of a materialized range have been upgraded
    in turn. *)
Definition upgraded (nodes : list Node) (w : W) : W :=
  fold_left (fun w' node => on_patchAndUpgradeTree node w') nodes w.

(** [disconnectedCallback] leaves every node's custom-element state alone. *)
Definition statePreserving : Prop :=
  forall element w node,
    __CE_state (on_disconnectedCallback element w) node = __CE_state w node.

(** [upgradesRange m s call w1 fuel start end_]: when the siblings from
    [start] up to, and excluding, [end_] are [nodes] in the world [w1] and
    the fuel covers them, [m] run from [s] returns, having made the native
    [call], which left [w1], and then handed exactly [nodes], in order, to
    [patchAndUpgradeTree]. *)
Definition upgradesRange (m : M W unit) (s : State W) (call : NativeCall) (w1 : W)
           (fuel : nat) (start end_ : option Node) : Prop :=
  forall nodes,
    SiblingRange w1 start end_ nodes ->
    List.length nodes < fuel ->
    run m s
    = (Returns tt,
       mkState (upgraded nodes w1) (frames s)
               (log s ++ EvNative call :: map EvPatchAndUpgradeTree nodes)).

(** The sibling chain from [start] ends, after [steps] links, without
    having met [end_]. *)
Inductive SiblingsRunOut (w : W) : option Node -> option Node -> nat -> Prop :=
| runs_out_here : forall end_,
    node_eqb None end_ = false -> SiblingsRunOut w None end_ 0
| runs_out_next : forall n end_ steps,
    node_eqb (Some n) end_ = false ->
    SiblingsRunOut w (nextSibling w n) end_ steps ->
    SiblingsRunOut w (Some n) end_ (S steps).

(** The siblings from [start] up to [stop], or up to the end of the chain
    when [stop] is not met: what the loop of the [outerHTML] callback,
    [while (sibling !== null && sibling !== nextSibling)], runs over. *)
Inductive SiblingsUpTo (w : W) : option Node -> option Node -> list Node -> Prop :=
| upto_end : forall stop, SiblingsUpTo w None stop []
| upto_stop : forall n stop,
    node_eqb (Some n) stop = true -> SiblingsUpTo w (Some n) stop []
| upto_next : forall n stop rest,
    node_eqb (Some n) stop = false ->
    SiblingsUpTo w (nextSibling w n) stop rest ->
    SiblingsUpTo w (Some n) stop (n :: rest).

(** An engine method that leaves the sibling links of every node alone. *)
Definition keepsSiblings (effect : Node -> W -> W) : Prop :=
  forall root w node, nextSibling (effect root w) node = nextSibling w node.

(** The world after an engine method has been applied to some nodes in
    turn. *)
Definition applied (effect : Node -> W -> W) (nodes : list Node) (w : W) : W :=
  fold_left (fun w' node => effect node w') nodes w.

(** [previousSibling && previousSibling.nextSibling || parentNode.firstChild],
    the node at which the [outerHTML] callback starts to patch. *)
Definition firstReplacement (w : W) (parentNode : Node) (previousSibling : option Node)
  : option Node :=
  match previousSibling with
  | Some p =>
      match nextSibling w p with
      | Some x => Some x
      | None => firstChild w parentNode
      end
  | None => firstChild w parentNode
  end.

(** The patch function the HTML setter selects, by the event it leaves and
    by its effect: [patchAndUpgradeTree] for a document with a registry,
    [patchTree] otherwise. *)
Definition patchEvent (registered : bool) (root : Node) : Event :=
  if registered then EvPatchAndUpgradeTree root else EvPatchTree root.

Definition patchEffect (registered : bool) : Node -> W -> W :=
  if registered then on_patchAndUpgradeTree else on_patchTree.
End Readings.

(** [notifies m s elements]: run from [s], [m] hands exactly [elements], in
    this order, to [disconnectedCallback]. *)
Definition notifies {W A} (m : M W A) (s : State W) (elements : list Node) : Prop :=
  exists t, added m s t /\ disconnectedCalls t = elements.

(** [emits P m]: whatever its outcome, [m] adds to the log only events that
    satisfy [P], and leaves the depth of the frame stack as it found it. *)
Definition emits {W A} (P : Event -> bool) (m : M W A) : Prop :=
  forall s, exists t,
    added m s t /\ forallb P t = true /\ frames (exec m s) = frames s.

(** [closes m]: when [m] returns, the last thing it did was to pop a frame,
    and it neither pushed nor popped before that. *)
Definition closes {W A} (m : M W A) : Prop :=
  forall s, (exists a, outcome m s = Returns a) ->
    exists t, added m s (t ++ [EvPop]) /\ forallb notFrameEvent t = true
              /\ frames (exec m s) = pred (frames s).

(** ** Statements about exceptions *)

(** A native call bracketed by a frame, and nothing else: what a patched
    [Node] operation comes to when no engine call is due.  A native
    exception leaves the frame where the push put it. *)
Definition bracketed {W A} (call : NativeCall) (f : W -> Exn + A * W) (s : State W)
  : Outcome A * State W :=
  match f (world s) with
  | inr (a, w') =>
      (Returns a, mkState w' (frames s) (log s ++ [EvPush; EvNative call; EvPop]))
  | inl e => (Throws e, mkState (world s) (S (frames s)) (log s ++ [EvPush]))
  end.

(** [leavesOpen m]: when [m] throws, it has neither pushed nor popped. *)
Definition leavesOpen {W A} (m : M W A) : Prop :=
  forall s e, outcome m s = Throws e ->
    exists t, added m s t /\ forallb notFrameEvent t = true
              /\ frames (exec m s) = frames s.

(** * Proofs *)

(** ** What a program adds to the log *)

Section Emits.
Context {W : Type}.
Variable P : Event -> bool.

Lemma emits_ret {A} (a : A) : emits P (ret (W := W) a).
Proof.
  intros s. exists []. unfold added, exec, ret. simpl.
  rewrite app_nil_r. auto.
Qed.

Lemma emits_throw {A} (e : Exn) : emits P (throw (W := W) (A := A) e).
Proof.
  intros s. exists []. unfold added, exec, throw. simpl.
  rewrite app_nil_r. auto.
Qed.

Lemma emits_diverge {A} : emits P (diverge (W := W) (A := A)).
Proof.
  intros s. exists []. unfold added, exec, diverge. simpl.
  rewrite app_nil_r. auto.
Qed.

Lemma emits_read {A} (f : W -> A) : emits P (read f).
Proof.
  intros s. exists []. unfold added, exec, read. simpl.
  rewrite app_nil_r. auto.
Qed.

Lemma emits_attempt {A} (f : W -> Exn + A) : emits P (attempt f).
Proof.
  intros s. exists []. unfold added, exec, attempt.
  destruct (f (world s)); simpl; rewrite app_nil_r; auto.
Qed.

Lemma emits_native {A} call (f : W -> Exn + A * W) :
  P (EvNative call) = true -> emits P (native call f).
Proof.
  intros HP s. unfold added, exec, native.
  destruct (f (world s)) as [e | [a w']]; simpl.
  - exists []. rewrite app_nil_r. auto.
  - exists [EvNative call]. simpl. rewrite HP. auto.
Qed.

Lemma emits_engine ev (f : W -> W) : P ev = true -> emits P (engine ev f).
Proof.
  intros HP s. exists [ev]. unfold added, exec, engine. simpl.
  rewrite HP. auto.
Qed.

Lemma emits_bind {A B} (m : M W A) (k : A -> M W B) :
  emits P m -> (forall a, emits P (k a)) -> emits P (bind m k).
Proof.
  intros Hm Hk s. destruct (Hm s) as [t1 [Hl1 [Hp1 Hf1]]].
  unfold added, exec, bind in *.
  destruct (m s) as [[a | e |] s1]; simpl in *;
    try solve [exists t1; auto].
  destruct (Hk a s1) as [t2 [Hl2 [Hp2 Hf2]]].
  unfold added, exec in *.
  exists (t1 ++ t2). rewrite Hl2, Hl1, app_assoc, forallb_app, Hp1, Hp2.
  repeat split; congruence.
Qed.

Lemma emits_when (c : bool) (m : M W unit) : emits P m -> emits P (when c m).
Proof. destruct c; simpl; auto using emits_ret. Qed.
End Emits.

Ltac unfold_calls :=
  unfold Native.Node_insertBefore, Native.Node_appendChild, Native.Node_cloneNode,
    Native.Node_removeChild, Native.Node_replaceChild, Native.Element_getAttribute,
    Native.Element_setAttribute, Native.Element_getAttributeNS,
    Native.Element_setAttributeNS, Native.Element_removeAttribute,
    Native.Element_removeAttributeNS, Utilities.isConnected_nullable,
    Utilities.isConnected, Utilities.walkDeepDescendantElements, internals.connectTree,
    internals.disconnectTree, internals.patchTree, internals.patchAndUpgradeTree,
    internals.attributeChangedCallback, internals.disconnectedCallback in *.

(** Take a goal about a composite program apart along the structure of
    the program: [rule] closes or splits the goal for one construct, the
    test of a conditional is split by cases. *)
Ltac by_structure rule :=
  repeat first
    [ rule
    | match goal with
      | |- ?R (if ?b then _ else _) => destruct b
      | |- ?R (match ?x with _ => _ end) => destruct x
      end ].

Section Loops.
Context {W : Type} `{Dom W} `{NativeMethods W} `{UtilitiesModule W}
        `{CustomElementInternals W}.
Variable P : Event -> bool.

Lemma emits_disconnectChildren fuel child :
  (forall n, P (EvDisconnectTree n) = true) ->
  emits P (PatchNode.disconnectChildren fuel child).
Proof.
  intros HP. revert child.
  induction fuel as [| fuel IH]; intros [c |]; simpl;
    try solve [apply emits_ret | apply emits_diverge].
  unfold_calls. apply emits_bind; [apply emits_engine, HP | intro].
  apply emits_bind; [apply emits_read | intro]. apply IH.
Qed.

Lemma emits_notifyRemoved removedElements :
  (forall n, P (EvDisconnected n) = true) ->
  emits P (PatchElement.notifyRemoved removedElements).
Proof.
  intros HP. induction removedElements as [| element rest IH]; simpl.
  - apply emits_ret.
  - unfold_calls. apply emits_bind; [apply emits_read | intro].
    apply emits_bind; [| intro; exact IH].
    apply emits_when, emits_engine, HP.
Qed.

Lemma emits_patchSiblings fuel (patchFunction : Node -> M W unit) sibling stop :
  (forall n, emits P (patchFunction n)) ->
  emits P (PatchElement.patchSiblings fuel patchFunction sibling stop).
Proof.
  intros HP. revert sibling.
  induction fuel as [| fuel IH]; intros [sib |];
    cbn [PatchElement.patchSiblings];
    try solve [apply emits_ret
              | destruct (node_eqb (Some sib) stop);
                [apply emits_ret | apply emits_diverge]].
  destruct (node_eqb (Some sib) stop); [apply emits_ret |].
  apply emits_bind; [apply HP | intro].
  apply emits_bind; [apply emits_read | intro]. apply IH.
Qed.

Lemma emits_outerHTML_patchCallback fuel node (patchFunction : Node -> M W unit) memo :
  (forall n, emits P (patchFunction n)) ->
  emits P (PatchElement.outerHTML_patchCallback fuel node patchFunction memo).
Proof.
  intros HP. unfold PatchElement.outerHTML_patchCallback.
  destruct (memo_parentNode memo) as [p |]; [| apply emits_throw].
  destruct (memo_previousSibling memo) as [ps |], (memo_nextSibling memo) as [ns |];
    try apply HP;
    (apply emits_bind;
     [ by_structure ltac:(first [ apply emits_bind; [| intro ]
                                | apply emits_read | apply emits_ret ])
     | intro; apply emits_patchSiblings, HP ]).
Qed.

Lemma emits_rangeNodes fuel node end_ :
  emits P (PatchElement.rangeNodes fuel node end_).
Proof.
  revert node. induction fuel as [| fuel IH]; intros node;
    cbn [PatchElement.rangeNodes].
  - destruct (node_eqb node end_); [apply emits_ret | apply emits_diverge].
  - destruct (node_eqb node end_); [apply emits_ret |].
    destruct node as [n |]; [| apply emits_throw].
    apply emits_bind; [apply emits_read | intro].
    apply emits_bind; [apply IH | intro]. apply emits_ret.
Qed.

Lemma emits_upgradeEach nodes :
  (forall n, P (EvPatchAndUpgradeTree n) = true) ->
  emits P (PatchElement.upgradeEach nodes).
Proof.
  intros HP. induction nodes as [| node rest IH]; simpl.
  - apply emits_ret.
  - unfold_calls. apply emits_bind; [apply emits_engine, HP | intro; exact IH].
Qed.
End Loops.

(** ** Frames *)

Section Frames.
Context {W : Type} `{Dom W} `{NativeMethods W} `{UtilitiesModule W}
        `{CustomElementInternals W}.

Lemma exec_discard {A} (m : M W A) s : exec (discard m) s = exec m s.
Proof.
  unfold exec, discard, bind, ret. destruct (m s) as [[a | e |] s']; reflexivity.
Qed.

Lemma outcome_discard {A} (m : M W A) s :
  outcome (discard m) s = Returns tt -> exists a, outcome m s = Returns a.
Proof.
  unfold outcome, discard, bind, ret.
  destruct (m s) as [[a | e |] s']; simpl; intros E; try discriminate. eauto.
Qed.

Lemma closes_pop : closes (W := W) internals.popCEReactionsQueue.
Proof.
  intros s _. exists []. unfold added, exec. simpl. auto.
Qed.

Lemma closes_pop_ret {A} (a : A) :
  closes (W := W) (internals.popCEReactionsQueue ;; ret a).
Proof.
  intros s _. exists []. unfold added, exec. simpl. auto.
Qed.

Lemma closes_bind {A B} (m : M W A) (k : A -> M W B) :
  emits notFrameEvent m -> (forall a, closes (k a)) -> closes (bind m k).
Proof.
  intros Hm Hk s [b Hb]. destruct (Hm s) as [t1 [Hl1 [Hp1 Hf1]]].
  unfold added, exec, outcome, bind in *.
  destruct (m s) as [[a | e |] s1]; simpl in *; try discriminate.
  destruct (Hk a s1) as [t2 [Hl2 [Hp2 Hf2]]]; [eauto |].
  unfold added, exec in *.
  exists (t1 ++ t2).
  rewrite Hl2, Hl1, forallb_app, Hp1, Hp2, Hf2, Hf1, <- !app_assoc. auto.
Qed.

Lemma framedTrace_intro (t : list Event) :
  forallb notFrameEvent t = true -> framedTrace (EvPush :: t ++ [EvPop]) = true.
Proof.
  intros Ht. unfold framedTrace. rewrite rev_unit.
  rewrite forallb_forall in *. intros e He. apply Ht, in_rev, He.
Qed.

Lemma framed_push {A} (m : M W A) s :
  closes m ->
  (exists a, outcome (internals.pushCEReactionsQueue ;; m) s = Returns a) ->
  framed (internals.pushCEReactionsQueue ;; m) s.
Proof.
  intros Hm Hret. unfold framed, added, exec, outcome, bind in *. simpl in *.
  destruct (Hm _ Hret) as [t [Hl [Hp Hf]]].
  unfold added, exec in *. simpl in *.
  exists (EvPush :: t ++ [EvPop]).
  rewrite Hl, Hf, <- app_assoc. auto using framedTrace_intro.
Qed.
End Frames.

Section FrameDiscipline.
Context {W : Type} `{Dom W} `{NativeMethods W} `{UtilitiesModule W}
        `{CustomElementInternals W}.

Lemma element_operation_emits (op : Operation (W := W)) :
  isNodeOperation op = false -> emits notFrameEvent (perform op).
Proof.
  destruct op; simpl; intros E; try discriminate;
    unfold discard, PatchElement.setAttribute, PatchElement.setAttributeNS,
      PatchElement.removeAttribute, PatchElement.removeAttributeNS,
      PatchElement.patch_insertAdjacentElement, PatchElement.patch_insertAdjacentHTML,
      PatchElement.patch_innerHTML, PatchElement.patch_outerHTML,
      PatchElement.patch_HTMLsetter, PatchElement.upgradeNodesInRange,
      PatchElement.ownerDocument_CE_hasRegistry, PatchElement.parentNode_firstChild;
    unfold_calls;
    by_structure
      ltac:(first
              [ apply emits_ret | apply emits_throw | apply emits_read
              | apply emits_attempt
              | apply emits_native; reflexivity
              | apply emits_engine; reflexivity
              | apply emits_when
              | apply emits_bind; [ | intro ]
              | apply emits_notifyRemoved; intro; reflexivity
              | apply emits_upgradeEach; intro; reflexivity
              | apply emits_rangeNodes
              | apply emits_outerHTML_patchCallback; intro; unfold_calls;
                apply emits_engine; reflexivity ]).
Qed.

Lemma node_operation_framed (op : Operation (W := W)) s :
  isNodeOperation op = true ->
  outcome (perform op) s = Returns tt ->
  framed (perform op) s.
Proof.
  destruct op; simpl; intros E Hret; try discriminate;
    try (apply outcome_discard in Hret;
         unfold framed, added; rewrite exec_discard;
         change (framed (W := W)
                   ltac:(match type of Hret with
                         | exists _, outcome ?m _ = _ => exact m end) s));
    apply framed_push; eauto;
    unfold PatchNode.ownerDocument_CE_registry; unfold_calls;
    by_structure
      ltac:(first
              [ apply closes_pop_ret | apply closes_pop
              | apply closes_bind;
                [ solve [ by_structure
                            ltac:(first
                                    [ apply emits_ret | apply emits_throw
                                    | apply emits_read
                                    | apply emits_native; reflexivity
                                    | apply emits_engine; reflexivity
                                    | apply emits_when
                                    | apply emits_bind; [ | intro ]
                                    | apply emits_disconnectChildren; intro;
                                      reflexivity ]) ]
                | intro ] ]).
Qed.
End FrameDiscipline.

#[local] Existing Instances Browser.dom Browser.natives Browser.utilities Browser.engines.

(** ** C1: frames around the patched operations *)

(** C1, as stated, fails: the patched [setAttribute] pushes no frame.  On the
    page of the small browser, setting attribute [a] of the custom element 2
    returns, and the trace it leaves is not bracketed by a push and a pop. *)
Lemma C1_setAttribute_pushes_no_frame :
  outcome (perform (Op_setAttribute 2 "a" "2")) Browser.start = Returns tt
  /\ ~ framed (perform (Op_setAttribute 2 "a" "2")) Browser.start.
Proof.
  split; [reflexivity |].
  intros [t [Hadded [Hframed _]]]. unfold added in Hadded.
  vm_compute in Hadded. subst t. discriminate.
Qed.

(** C1 (amended).  Each operation patched by Patch/Node.js ([insertBefore],
    [appendChild], [removeChild], [replaceChild], [cloneNode], the
    [textContent] setter) pushes a frame first and, on every path on which it
    returns, pops it last, with no other push or pop in between, so the stack
    is back at its entry depth when the operation returns.  The operations
    patched by the Element file (the four attribute operations,
    [insertAdjacentElement], [insertAdjacentHTML], the [innerHTML] and
    [outerHTML] setters) neither push nor pop and leave the depth as it was. *)
Theorem C1_frames_around_node_operations
        {W : Type} {D : Dom W} {N : NativeMethods W} {U : UtilitiesModule W}
        {I : CustomElementInternals W} (op : Operation (W := W)) (s : State W) :
  (isNodeOperation op = true ->
   outcome (perform op) s = Returns tt -> framed (perform op) s)
  /\ (isNodeOperation op = false -> unframed (perform op) s).
Proof.
  split.
  - apply node_operation_framed.
  - intros Hop. apply element_operation_emits, Hop.
Qed.

Lemma C1_frames_witness :
  framed (perform (Op_removeChild 1 2)) Browser.start
  /\ framed (perform (Op_textContent Browser.Node_textContent 4 2 "hello")) Browser.start
  /\ unframed (perform (Op_innerHTML Browser.Element_innerHTML 2 "")) Browser.start.
Proof.
  split; [| split].
  - apply (proj1 (C1_frames_around_node_operations
                    (Op_removeChild 1 2) Browser.start)); reflexivity.
  - apply (proj1 (C1_frames_around_node_operations
                    (Op_textContent Browser.Node_textContent 4 2 "hello")
                    Browser.start)); reflexivity.
  - apply (proj2 (C1_frames_around_node_operations
                    (Op_innerHTML Browser.Element_innerHTML 2 "") Browser.start));
      reflexivity.
Defined.

(** ** Symbolic execution of one operation *)

Ltac run_op :=
  unfold perform, discard, PatchNode.insertBefore, PatchNode.appendChild,
    PatchNode.removeChild, PatchNode.replaceChild, PatchNode.cloneNode,
    PatchNode.ownerDocument_CE_registry, PatchElement.setAttribute,
    PatchElement.setAttributeNS, PatchElement.removeAttribute,
    PatchElement.removeAttributeNS, PatchElement.patch_insertAdjacentElement;
  unfold_calls;
  unfold added;
  unfold run, outcome, exec, bind, ret, read, attempt, when, native, engine, throw,
    internals.pushCEReactionsQueue, internals.popCEReactionsQueue;
  simpl.

(** Split on the innermost test the goal still branches on. *)
Ltac case_step :=
  match goal with
  | |- context [match ?x with _ => _ end] =>
      lazymatch x with
      | context [match _ with _ => _ end] => fail
      | _ => destruct x eqn:?
      end
  end; simpl.

Ltac shape :=
  first
    [ eexists [], _, []; split; [ simpl; reflexivity | ]
    | eexists [_], _, []; split; [ simpl; reflexivity | ]
    | eexists [], _, [_]; split; [ simpl; reflexivity | ]
    | eexists [_], _, [_]; split; [ simpl; reflexivity | ]
    | eexists [_; _], _, []; split; [ simpl; reflexivity | ]
    | eexists [_; _; _], _, []; split; [ simpl; reflexivity | ] ].

(** ** C2: the order of native mutation and engine calls *)

(** C2, as stated, fails: [removeChild] calls [disconnectTree] before the
    native removal.  Removing the connected custom element 2 from its parent
    leaves the trace push, disconnectTree, native call, pop. *)
Lemma C2_removeChild_disconnects_before_native :
  log (exec (PatchNode.removeChild 1 2) Browser.start)
  = [EvPush; EvDisconnectTree 2; EvNative (Call_removeChild 1 2); EvPop]
  /\ nativeFirst (log (exec (PatchNode.removeChild 1 2) Browser.start)) = false.
Proof. split; reflexivity. Qed.

(** C2 (amended).  Each of [insertBefore], [appendChild], [removeChild] and
    [replaceChild], when it returns, has pushed a frame first, performed the
    native mutation once, and popped the frame last; the engine calls lie in
    between.  Every [disconnectTree] call precedes the native mutation.  A
    [connectTree] call follows the native mutation when an insertion is given
    a node that is not a DocumentFragment, and precedes it in the
    DocumentFragment branch and in [replaceChild]. *)
Theorem C2_push_engine_native_pop
        {W : Type} {D : Dom W} {N : NativeMethods W} {U : UtilitiesModule W}
        {I : CustomElementInternals W} (op : Operation (W := W)) (s : State W) :
  isStructuralNodeOperation op = true ->
  outcome (perform op) s = Returns tt ->
  exists pre call post,
    added (perform op) s (EvPush :: pre ++ EvNative call :: post ++ [EvPop])
    /\ forallb isTreeEngine pre = true
    /\ forallb isConnectTree post = true
    /\ (connectsAfterNative (world s) op = false -> post = [])
    /\ (connectsBeforeNative (world s) op = false -> forallb isDisconnectTree pre = true).
Proof.
  destruct op; simpl; intros E; try discriminate; clear E;
    run_op; repeat case_step; intros Hret; try discriminate;
    rewrite <- ?app_assoc; simpl; shape;
    repeat split; intros; try reflexivity; discriminate.
Qed.

Lemma C2_push_engine_native_pop_witness :
  exists pre call post,
    added (perform (Op_insertBefore 1 6 (Some 3))) Browser.start
          (EvPush :: pre ++ EvNative call :: post ++ [EvPop])
    /\ forallb isTreeEngine pre = true
    /\ forallb isConnectTree post = true
    /\ (connectsAfterNative (world Browser.start) (Op_insertBefore 1 6 (Some 3)) = false
        -> post = [])
    /\ (connectsBeforeNative (world Browser.start) (Op_insertBefore 1 6 (Some 3)) = false
        -> forallb isDisconnectTree pre = true).
Proof.
  apply (C2_push_engine_native_pop (Op_insertBefore 1 6 (Some 3)) Browser.start);
    reflexivity.
Defined.

(** ** Loops over the live sibling chain *)

Section SiblingChains.
Context {W : Type} `{Dom W} `{NativeMethods W} `{UtilitiesModule W}
        `{CustomElementInternals W}.

Lemma state_eta (s : State W) : mkState (world s) (frames s) (log s) = s.
Proof. destruct s; reflexivity. Qed.

Lemma SiblingRange_same_links (w w' : W) start end_ nodes :
  (forall node, nextSibling w' node = nextSibling w node) ->
  SiblingRange w start end_ nodes -> SiblingRange w' start end_ nodes.
Proof.
  intros Hsame Hrange.
  induction Hrange as [start end_ E | n end_ rest E Hrest IH].
  - constructor. exact E.
  - constructor; [exact E |]. rewrite Hsame. exact IH.
Qed.

(** The loop of the [textContent] setter, when [disconnectTree] leaves the
    sibling links alone: every child, in order. *)
Lemma disconnectChildren_run fuel child nodes (s : State W) :
  keepsSiblings on_disconnectTree ->
  SiblingRange (world s) child None nodes ->
  List.length nodes <= fuel ->
  PatchNode.disconnectChildren fuel child s
  = (Returns tt,
     mkState (applied on_disconnectTree nodes (world s)) (frames s)
             (log s ++ map EvDisconnectTree nodes)).
Proof.
  intros Hkeeps. revert fuel child s.
  induction nodes as [| n rest IH]; intros fuel child s Hrange Hfuel;
    inversion Hrange; subst.
  - destruct child as [c |]; [discriminate |].
    destruct fuel; simpl; unfold ret; rewrite app_nil_r, state_eta; reflexivity.
  - destruct fuel as [| fuel]; [inversion Hfuel |].
    cbn [PatchNode.disconnectChildren].
    unfold bind, internals.disconnectTree, engine, read. simpl.
    rewrite Hkeeps.
    rewrite IH; simpl.
    + rewrite <- app_assoc. reflexivity.
    + apply SiblingRange_same_links with (w := world s); [| assumption].
      intros node. apply Hkeeps.
    + simpl in Hfuel. lia.
Qed.

Lemma SiblingsUpTo_same_links (w w' : W) start stop nodes :
  (forall node, nextSibling w' node = nextSibling w node) ->
  SiblingsUpTo w start stop nodes -> SiblingsUpTo w' start stop nodes.
Proof.
  intros Hsame Hupto.
  induction Hupto as [stop | n stop E | n stop rest E Hrest IH].
  - constructor.
  - constructor. exact E.
  - constructor; [exact E |]. rewrite Hsame. exact IH.
Qed.

(** The loop of the [outerHTML] callback follows the live sibling links;
    when the patch function leaves them alone it patches the siblings up
    to the stop, or to the end of the chain. *)
Lemma patchSiblings_run fuel (event : Node -> Event) (effect : Node -> W -> W)
      sibling stop nodes (s : State W) :
  keepsSiblings effect ->
  SiblingsUpTo (world s) sibling stop nodes ->
  List.length nodes <= fuel ->
  PatchElement.patchSiblings fuel (fun n => engine (event n) (effect n)) sibling stop s
  = (Returns tt,
     mkState (applied effect nodes (world s)) (frames s) (log s ++ map event nodes)).
Proof.
  intros Hkeeps. revert fuel sibling s.
  induction nodes as [| n rest IH]; intros fuel sibling s Hupto Hfuel;
    inversion Hupto; subst.
  - destruct fuel; simpl; unfold ret; rewrite app_nil_r, state_eta; reflexivity.
  - destruct fuel; cbn [PatchElement.patchSiblings];
      match goal with E : node_eqb _ _ = true |- _ => rewrite E end;
      unfold ret; simpl; rewrite app_nil_r, state_eta; reflexivity.
  - destruct fuel as [| fuel]; [inversion Hfuel |].
    cbn [PatchElement.patchSiblings].
    match goal with E : node_eqb _ _ = false |- _ => rewrite E end.
    unfold bind, engine, read. simpl. rewrite Hkeeps.
    rewrite IH; simpl.
    + rewrite <- app_assoc. reflexivity.
    + apply SiblingsUpTo_same_links with (w := world s); [| assumption].
      intros node. apply Hkeeps.
    + simpl in Hfuel. lia.
Qed.
End SiblingChains.

(** In the small browser the engine methods leave the tree alone. *)
Lemma Browser_disconnectTree_keepsSiblings :
  keepsSiblings (@on_disconnectTree _ Browser.engines).
Proof.
  intros root w node. simpl.
  set (f := fun (w' : Browser.World) e => Browser.enqueue (Browser.Disconnected e) w').
  assert (Hnodes : forall l w0, Browser.nodes (fold_left f l w0) = Browser.nodes w0).
  { induction l as [| e l IH]; intros w0; simpl; [reflexivity |]. rewrite IH. reflexivity. }
  unfold Browser.siblings, Browser.data. rewrite Hnodes. reflexivity.
Qed.

Lemma Browser_patch_keepsSiblings (registered : bool) :
  keepsSiblings (@patchEffect _ Browser.engines registered).
Proof. intros root w node. destruct registered; reflexivity. Qed.

(** ** C3: which nodes get [disconnectTree] and [connectTree] *)

(** C3, as stated, fails: a node whose connectedness does not change is
    given both calls.  Moving the connected element 3 in front of its
    sibling 2 leaves it connected, and the trace holds a [disconnectTree]
    and a [connectTree] for it. *)
Lemma C3_move_within_document_calls_both :
  ~ connectednessClaim
      (util_isConnected Browser.page 3)
      (util_isConnected
         (world (exec (PatchNode.insertBefore 1 3 (Some 2)) Browser.start)) 3)
      3 (log (exec (PatchNode.insertBefore 1 3 (Some 2)) Browser.start)).
Proof.
  intros [_ [_ Hnone]].
  destruct Hnone as [Hdis _]; [reflexivity |].
  apply Hdis. vm_compute. auto.
Qed.

(** C3 (amended).  For [insertBefore] and [appendChild] of a node that is
    not a DocumentFragment, for [removeChild], and for
    [insertAdjacentElement] when the native method returns the inserted
    element, whenever the native mutation returns: [disconnectTree] is
    called on the moved node exactly when the node is an element that was
    connected when the operation was entered, and [connectTree] exactly
    when it is an element that is connected once the native mutation has
    been performed ([removeChild] never calls [connectTree];
    [insertAdjacentElement] tests the element the native method returned).
    Each is called at most once, [disconnectTree] first; a node that was
    connected and still is gets both.  [replaceChild], given a node that is
    not a DocumentFragment, decides by the connectedness of the receiving
    parent, before the native mutation: [disconnectTree] on the replaced
    node and [connectTree] on the inserted element exactly when the parent
    is connected, [disconnectTree] on the inserted element exactly when
    that element was connected.  Given a DocumentFragment, the three
    operations call [connectTree] on the fragment, before the native
    mutation, exactly when the receiving parent is connected
    ([replaceChild] after [disconnectTree] on the replaced node), and never
    [disconnectTree] on it.  The [textContent] setter makes no tree call on
    a text node or on a receiver that is not connected; on a connected
    receiver that is not a text node it calls [disconnectTree] on each
    child in sibling order -- the children the receiver had on entry, when
    [disconnectTree] leaves the sibling links alone -- and never
    [connectTree]. *)
Theorem C3_tree_calls_follow_connectedness
        {W : Type} {D : Dom W} {N : NativeMethods W} {U : UtilitiesModule W}
        {I : CustomElementInternals W} (s : State W) :
  (forall this node refNode r w',
      instanceofDocumentFragment (world s) node = false ->
      let before := connectedElement (world s) node in
      native_insertBefore this node refNode
        (if before then on_disconnectTree node (world s) else world s) = inr (r, w') ->
      let after := instanceofElement (world s) node && util_isConnected w' node in
      added (PatchNode.insertBefore this node refNode) s
            ([EvPush] ++ fst (treeCalls before after node)
             ++ [EvNative (Call_insertBefore this node refNode)]
             ++ snd (treeCalls before after node) ++ [EvPop]))
  /\ (forall this node r w',
      instanceofDocumentFragment (world s) node = false ->
      let before := connectedElement (world s) node in
      native_appendChild this node
        (if before then on_disconnectTree node (world s) else world s) = inr (r, w') ->
      let after := instanceofElement (world s) node && util_isConnected w' node in
      added (PatchNode.appendChild this node) s
            ([EvPush] ++ fst (treeCalls before after node)
             ++ [EvNative (Call_appendChild this node)]
             ++ snd (treeCalls before after node) ++ [EvPop]))
  /\ (forall this node r w',
      let before := connectedElement (world s) node in
      native_removeChild this node
        (if before then on_disconnectTree node (world s) else world s) = inr (r, w') ->
      added (PatchNode.removeChild this node) s
            ([EvPush] ++ fst (treeCalls before false node)
             ++ [EvNative (Call_removeChild this node)] ++ [EvPop]))
  /\ (forall baseMethod this position element inserted w',
      baseMethod this position element (world s) = inr (Some inserted, w') ->
      let before := util_isConnected (world s) element in
      let after :=
        util_isConnected (if before then on_disconnectTree element w' else w') inserted in
      added (PatchElement.patch_insertAdjacentElement baseMethod this position element) s
            ([EvNative (Call_insertAdjacentElement this position element)]
             ++ fst (treeCalls before after element)
             ++ snd (treeCalls before after element)))
  /\ (forall this nodeToInsert nodeToRemove r w',
      instanceofDocumentFragment (world s) nodeToInsert = false ->
      let parentConnected := util_isConnected (world s) this in
      let w1 := if parentConnected
                then on_disconnectTree nodeToRemove (world s) else world s in
      let before := connectedElement w1 nodeToInsert in
      let after := instanceofElement w1 nodeToInsert && parentConnected in
      native_replaceChild this nodeToInsert nodeToRemove
        (if after
         then on_connectTree nodeToInsert
                (if before then on_disconnectTree nodeToInsert w1 else w1)
         else if before then on_disconnectTree nodeToInsert w1 else w1) = inr (r, w') ->
      added (PatchNode.replaceChild this nodeToInsert nodeToRemove) s
            ([EvPush] ++ fst (treeCalls parentConnected false nodeToRemove)
             ++ fst (treeCalls before after nodeToInsert)
             ++ snd (treeCalls before after nodeToInsert)
             ++ [EvNative (Call_replaceChild this nodeToInsert nodeToRemove)]
             ++ [EvPop]))
  /\ (forall this node refNode r w',
      instanceofDocumentFragment (world s) node = true ->
      let parentConnected := util_isConnected (world s) this in
      native_insertBefore this node refNode
        (if parentConnected then on_connectTree node (world s) else world s)
      = inr (r, w') ->
      added (PatchNode.insertBefore this node refNode) s
            ([EvPush] ++ snd (treeCalls false parentConnected node)
             ++ [EvNative (Call_insertBefore this node refNode)] ++ [EvPop]))
  /\ (forall this node r w',
      instanceofDocumentFragment (world s) node = true ->
      let parentConnected := util_isConnected (world s) this in
      native_appendChild this node
        (if parentConnected then on_connectTree node (world s) else world s)
      = inr (r, w') ->
      added (PatchNode.appendChild this node) s
            ([EvPush] ++ snd (treeCalls false parentConnected node)
             ++ [EvNative (Call_appendChild this node)] ++ [EvPop]))
  /\ (forall this nodeToInsert nodeToRemove r w',
      instanceofDocumentFragment (world s) nodeToInsert = true ->
      let parentConnected := util_isConnected (world s) this in
      native_replaceChild this nodeToInsert nodeToRemove
        (if parentConnected
         then on_connectTree nodeToInsert (on_disconnectTree nodeToRemove (world s))
         else world s) = inr (r, w') ->
      added (PatchNode.replaceChild this nodeToInsert nodeToRemove) s
            ([EvPush] ++ fst (treeCalls parentConnected false nodeToRemove)
             ++ snd (treeCalls false parentConnected nodeToInsert)
             ++ [EvNative (Call_replaceChild this nodeToInsert nodeToRemove)]
             ++ [EvPop]))
  /\ (forall baseDescriptor fuel this assignedValue w',
      isTextNode (world s) this = true \/ util_isConnected (world s) this = false ->
      descriptor_set baseDescriptor this assignedValue (world s) = inr (tt, w') ->
      added (PatchNode.patch_textContent baseDescriptor fuel this assignedValue) s
            [EvPush; EvNative (Call_set "textContent" this assignedValue); EvPop])
  /\ (forall baseDescriptor fuel this assignedValue children w',
      isTextNode (world s) this = false ->
      util_isConnected (world s) this = true ->
      keepsSiblings on_disconnectTree ->
      SiblingRange (world s) (firstChild (world s) this) None children ->
      List.length children <= fuel ->
      descriptor_set baseDescriptor this assignedValue
                     (applied on_disconnectTree children (world s)) = inr (tt, w') ->
      added (PatchNode.patch_textContent baseDescriptor fuel this assignedValue) s
            ([EvPush] ++ map EvDisconnectTree children
             ++ [EvNative (Call_set "textContent" this assignedValue); EvPop])).
Proof.
  unfold connectedElement, treeCalls. cbv zeta.
  repeat match goal with |- _ /\ _ => split end;
    try solve [ intros; run_op; repeat case_step; rewrite <- ?app_assoc;
                simpl in *; congruence ].
  - intros baseDescriptor fuel this assignedValue w' Hplain Hnative.
    unfold added, exec, PatchNode.patch_textContent.
    unfold bind at 1. simpl. unfold bind at 1, read at 1. simpl.
    destruct (isTextNode (world s) this) eqn:Htext.
    + unfold bind, native, internals.popCEReactionsQueue. simpl.
      rewrite Hnative. simpl. rewrite <- ?app_assoc. reflexivity.
    + destruct Hplain as [Hplain | Hplain]; [discriminate |].
      unfold Utilities.isConnected, bind, read, when, ret, native,
        internals.popCEReactionsQueue. simpl. rewrite Hplain. simpl.
      rewrite Hnative. simpl. rewrite <- ?app_assoc. reflexivity.
  - intros baseDescriptor fuel this assignedValue children w'
           Htext Hconnected Hkeeps Hrange Hfuel Hnative.
    unfold added, exec, PatchNode.patch_textContent.
    unfold bind at 1. simpl. unfold bind at 1, read at 1. simpl.
    rewrite Htext.
    unfold Utilities.isConnected. unfold bind at 1, read at 1. simpl.
    rewrite Hconnected. unfold when.
    unfold bind at 1. unfold bind at 1, read at 1. simpl.
    rewrite (disconnectChildren_run
               (mkState (world s) (S (frames s)) (log s ++ [EvPush]))
               Hkeeps Hrange Hfuel).
    unfold bind, native, internals.popCEReactionsQueue. simpl.
    rewrite Hnative. simpl.
    rewrite <- ?app_assoc. simpl. rewrite <- ?app_assoc. reflexivity.
Qed.

Lemma C3_tree_calls_witness :
  added (PatchNode.insertBefore 1 3 (Some 2)) Browser.start
        [EvPush; EvDisconnectTree 3; EvNative (Call_insertBefore 1 3 (Some 2));
         EvConnectTree 3; EvPop]
  /\ added (PatchElement.patch_insertAdjacentElement
              Browser.Element_insertAdjacentElement 3 "beforebegin" 6) Browser.start
           [EvNative (Call_insertAdjacentElement 3 "beforebegin" 6); EvConnectTree 6]
  /\ added (PatchNode.appendChild 1 7) Browser.start
           [EvPush; EvConnectTree 7; EvNative (Call_appendChild 1 7); EvPop]
  /\ added (PatchNode.patch_textContent Browser.Node_textContent 2 2 "hello")
           Browser.start
           [EvPush; EvDisconnectTree 4; EvDisconnectTree 5;
            EvNative (Call_set "textContent" 2 "hello"); EvPop].
Proof.
  destruct (C3_tree_calls_follow_connectedness Browser.start)
    as [Hinsert [_ [_ [Hadjacent [_ [_ [Happend [_ [_ Htext]]]]]]]]].
  split; [| split; [| split]].
  - exact (Hinsert 1 3 (Some 2) 3
                   (world (exec (Native.Node_insertBefore 1 3 (Some 2))
                                (mkState (on_disconnectTree 3 Browser.page) 0 [])))
                   eq_refl eq_refl).
  - exact (Hadjacent Browser.Element_insertAdjacentElement 3 "beforebegin" 6 6
                     (world (exec (native (Call_insertAdjacentElement 3 "beforebegin" 6)
                                          (Browser.Element_insertAdjacentElement
                                             3 "beforebegin" 6))
                                  Browser.start))
                     eq_refl).
  - exact (Happend 1 7 7
                   (world (exec (Native.Node_appendChild 1 7)
                                (mkState (on_connectTree 7 Browser.page) 0 [])))
                   eq_refl eq_refl).
  - refine (Htext Browser.Node_textContent 2 2 "hello" [4; 5]
                  (world (exec (PatchNode.patch_textContent
                                  Browser.Node_textContent 2 2 "hello") Browser.start))
                  eq_refl eq_refl Browser_disconnectTree_keepsSiblings _ _ eq_refl).
    + exact (@range_next _ Browser.dom Browser.page 4 None [5] eq_refl
               (@range_next _ Browser.dom Browser.page 5 None [] eq_refl
                  (@range_done _ Browser.dom Browser.page None None eq_refl))).
    + repeat constructor.
Defined.

(** ** C4, C5, C6: the attribute operations *)

Lemma value_eqb_eq (a b : option string) : value_eqb a b = true <-> a = b.
Proof.
  destruct a as [x |], b as [y |]; simpl; split; intros E;
    try discriminate; try reflexivity.
  - apply String.eqb_eq in E. congruence.
  - injection E as E. apply String.eqb_eq, E.
Qed.

Lemma value_eqb_neq (a b : option string) : value_eqb a b = false <-> a <> b.
Proof.
  split.
  - intros E Eab. apply value_eqb_eq in Eab. congruence.
  - intros Hab. destruct (value_eqb a b) eqn:E; [| reflexivity].
    apply value_eqb_eq in E. contradiction.
Qed.

Lemma CEState_eqb_eq (a b : CEState) : CEState_eqb a b = true <-> a = b.
Proof. destruct a, b; simpl; split; intros E; congruence. Qed.

(** From [log s ++ x = log s ++ t] to [t = x], whatever way the left-hand
    side is bracketed. *)
Ltac same_trace H :=
  rewrite <- ?app_assoc in H; simpl in H;
  first
    [ apply app_inv_head in H
    | match type of H with
      | ?l = ?l ++ _ => rewrite <- (app_nil_r l) in H at 1; apply app_inv_head in H
      end ].

Ltac one_of H :=
  simpl in H;
  repeat match type of H with
         | _ \/ _ => destruct H as [H | H]
         | False => contradiction
         end;
  try discriminate.

(** C4, as stated, fails: the new value that [removeAttribute] dispatches
    is not read back from the native store.  Element 4 has been given two
    attributes of the name [x], in two namespaces.  [removeAttribute("x")]
    removes the first of them and dispatches the new value [null], while
    the store, read back once the removal has completed, answers "2" for
    that name. *)
Lemma C4_removeAttribute_passes_null_for_a_value_still_stored :
  native_getAttribute (world Browser.shared_name) 4 "x" = Some "1"
  /\ added (PatchElement.removeAttribute 4 "x") Browser.shared_name
           [EvNative (Call_removeAttribute 4 "x");
            EvAttributeChanged 4 "x" (Some "1") None None]
  /\ native_getAttribute
       (world (exec (PatchElement.removeAttribute 4 "x") Browser.shared_name)) 4 "x"
     = Some "2".
Proof. repeat split; reflexivity. Qed.

(** C4 (amended).  Whenever a patched attribute operation on a node in the
    [custom] state dispatches an attribute-changed notification, the native
    mutation has completed and the values it passes are reads of the native
    attribute store, not the caller's arguments: the old value is what the
    store held for the attribute when the operation was entered, the new
    value is what the store answers once the mutation has completed --
    except for [removeAttribute], which passes [null] as the new value
    without reading the store again. *)
Theorem C4_dispatched_values_are_store_reads
        {W : Type} {D : Dom W} {N : NativeMethods W} {U : UtilitiesModule W}
        {I : CustomElementInternals W} (s : State W) (this : Node) :
  __CE_state (world s) this = custom ->
  (forall name newValue t element n oldV newV ns,
      added (PatchElement.setAttribute this name newValue) s t ->
      In (EvAttributeChanged element n oldV newV ns) t ->
      exists w', native_setAttribute this name newValue (world s) = inr (tt, w')
                 /\ element = this /\ n = name /\ ns = None
                 /\ oldV = native_getAttribute (world s) this name
                 /\ newV = native_getAttribute w' this name)
  /\ (forall namespace name newValue t element n oldV newV ns,
      added (PatchElement.setAttributeNS this namespace name newValue) s t ->
      In (EvAttributeChanged element n oldV newV ns) t ->
      exists w', native_setAttributeNS this namespace name newValue (world s) = inr (tt, w')
                 /\ element = this /\ n = name /\ ns = namespace
                 /\ oldV = native_getAttributeNS (world s) this namespace name
                 /\ newV = native_getAttributeNS w' this namespace name)
  /\ (forall name t element n oldV newV ns,
      added (PatchElement.removeAttribute this name) s t ->
      In (EvAttributeChanged element n oldV newV ns) t ->
      exists w', native_removeAttribute this name (world s) = inr (tt, w')
                 /\ element = this /\ n = name /\ ns = None
                 /\ oldV = native_getAttribute (world s) this name
                 /\ newV = None)
  /\ (forall namespace name t element n oldV newV ns,
      added (PatchElement.removeAttributeNS this namespace name) s t ->
      In (EvAttributeChanged element n oldV newV ns) t ->
      exists w', native_removeAttributeNS this namespace name (world s) = inr (tt, w')
                 /\ element = this /\ n = name /\ ns = namespace
                 /\ oldV = native_getAttributeNS (world s) this namespace name
                 /\ newV = native_getAttributeNS w' this namespace name).
Proof.
  intros Hstate.
  split; [| split; [| split]]; intros until ns;
    run_op; rewrite Hstate; simpl; repeat case_step; intros Hadd Hin;
    same_trace Hadd; subst t; one_of Hin;
    injection Hin as <- <- <- <- <-;
    destruct u; eauto 10.
Qed.

Lemma C4_dispatched_values_witness :
  exists w', native_setAttribute 2 "a" "2" (world Browser.start) = inr (tt, w')
             /\ 2 = 2 /\ "a" = "a" /\ @None string = None
             /\ Some "1" = native_getAttribute (world Browser.start) 2 "a"
             /\ Some "2" = native_getAttribute w' 2 "a".
Proof.
  destruct (C4_dispatched_values_are_store_reads Browser.start 2) as [Hset _];
    [reflexivity |].
  apply (Hset "a" "2"
              [EvNative (Call_setAttribute 2 "a" "2");
               EvAttributeChanged 2 "a" (Some "1") (Some "2") None]
              2 "a" (Some "1") (Some "2") None).
  - reflexivity.
  - simpl. auto.
Defined.

(** C5, as stated, fails: the patched [setAttribute] dispatches a no-op
    change.  Attribute [a] of the custom element 2 reads "1" before and
    after it is set to "1", and the notification is dispatched with the old
    value equal to the new one. *)
Lemma C5_setAttribute_dispatches_unchanged_value :
  native_getAttribute Browser.page 2 "a" = Some "1"
  /\ native_getAttribute
       (world (exec (Native.Element_setAttribute 2 "a" "1") Browser.start)) 2 "a"
     = Some "1"
  /\ In (EvAttributeChanged 2 "a" (Some "1") (Some "1") None)
        (log (exec (PatchElement.setAttribute 2 "a" "1") Browser.start)).
Proof.
  repeat split; vm_compute; auto.
Qed.

(** C5 (amended).  On a node in the [custom] state, [removeAttribute] and
    [removeAttributeNS] never dispatch an attribute-changed notification
    whose old value equals its new value.  [setAttribute] and
    [setAttributeNS] make no such test: whenever the native mutation
    returns they dispatch one notification, with the value read before and
    the value read back after, whether or not the two differ. *)
Theorem C5_only_removals_skip_unchanged_values
        {W : Type} {D : Dom W} {N : NativeMethods W} {U : UtilitiesModule W}
        {I : CustomElementInternals W} (s : State W) (this : Node) :
  __CE_state (world s) this = custom ->
  (forall name t element n oldV newV ns,
      added (PatchElement.removeAttribute this name) s t ->
      In (EvAttributeChanged element n oldV newV ns) t -> oldV <> newV)
  /\ (forall namespace name t element n oldV newV ns,
      added (PatchElement.removeAttributeNS this namespace name) s t ->
      In (EvAttributeChanged element n oldV newV ns) t -> oldV <> newV)
  /\ (forall name newValue w',
      native_setAttribute this name newValue (world s) = inr (tt, w') ->
      added (PatchElement.setAttribute this name newValue) s
            [EvNative (Call_setAttribute this name newValue);
             EvAttributeChanged this name (native_getAttribute (world s) this name)
                                (native_getAttribute w' this name) None])
  /\ (forall namespace name newValue w',
      native_setAttributeNS this namespace name newValue (world s) = inr (tt, w') ->
      added (PatchElement.setAttributeNS this namespace name newValue) s
            [EvNative (Call_setAttributeNS this namespace name newValue);
             EvAttributeChanged this name
                                (native_getAttributeNS (world s) this namespace name)
                                (native_getAttributeNS w' this namespace name)
                                namespace]).
Proof.
  intros Hstate. split; [| split; [| split]].
  - intros until ns. run_op. rewrite Hstate. simpl. repeat case_step;
      intros Hadd Hin; same_trace Hadd; subst t; one_of Hin.
    injection Hin as <- <- <- <- <-.
    apply value_eqb_neq. apply negb_true_iff. assumption.
  - intros until ns. run_op. rewrite Hstate. simpl. repeat case_step;
      intros Hadd Hin; same_trace Hadd; subst t; one_of Hin.
    injection Hin as <- <- <- <- <-.
    apply value_eqb_neq. apply negb_true_iff. assumption.
  - intros name newValue w' Hnative. run_op. rewrite Hstate. simpl.
    rewrite Hnative. simpl. rewrite <- app_assoc. reflexivity.
  - intros namespace name newValue w' Hnative. run_op. rewrite Hstate. simpl.
    rewrite Hnative. simpl. rewrite <- app_assoc. reflexivity.
Qed.

Lemma C5_only_removals_witness :
  added (PatchElement.setAttribute 2 "a" "1") Browser.start
        [EvNative (Call_setAttribute 2 "a" "1");
         EvAttributeChanged 2 "a" (Some "1") (Some "1") None].
Proof.
  destruct (C5_only_removals_skip_unchanged_values Browser.start 2)
    as [_ [_ [Hset _]]]; [reflexivity |].
  exact (Hset "a" "1"
              (world (exec (Native.Element_setAttribute 2 "a" "1") Browser.start))
              eq_refl).
Defined.

(** C6, as stated, fails: nothing is appended to a backlog.  Element 3 is
    in the [undefined] state; the patched [setAttribute] sets its attribute
    and leaves its recorded-attribute backlog empty, although the
    attribute-change dispatch of this browser would have recorded the
    change had it been called. *)
Lemma C6_undefined_node_backlog_stays_empty :
  __CE_state Browser.page 3 = undefined
  /\ native_getAttribute
       (world (exec (PatchElement.setAttribute 3 "a" "1") Browser.start)) 3 "a"
     = Some "1"
  /\ Browser.backlog
       (Browser.data (world (exec (PatchElement.setAttribute 3 "a" "1") Browser.start)) 3)
     = []
  /\ Browser.backlog
       (Browser.data (on_attributeChangedCallback 3 "a" None (Some "1") None Browser.page) 3)
     = [("a", None, Some "1", None)].
Proof.
  repeat split; reflexivity.
Qed.

(** C6 (amended).  For every node that is not in the [custom] state --
    [uncustomized], [undefined] or [failed] -- each of the four patched
    attribute operations is the native operation and nothing more: the
    attribute-change dispatch is not called, so the interceptor records
    nothing for the node. *)
Theorem C6_non_custom_nodes_take_the_native_path
        {W : Type} {D : Dom W} {N : NativeMethods W} {U : UtilitiesModule W}
        {I : CustomElementInternals W} (s : State W) (this : Node) :
  __CE_state (world s) this <> custom ->
  (forall name newValue,
      run (PatchElement.setAttribute this name newValue) s
      = run (Native.Element_setAttribute this name newValue) s)
  /\ (forall namespace name newValue,
      run (PatchElement.setAttributeNS this namespace name newValue) s
      = run (Native.Element_setAttributeNS this namespace name newValue) s)
  /\ (forall name,
      run (PatchElement.removeAttribute this name) s
      = run (Native.Element_removeAttribute this name) s)
  /\ (forall namespace name,
      run (PatchElement.removeAttributeNS this namespace name) s
      = run (Native.Element_removeAttributeNS this namespace name) s).
Proof.
  intros Hstate.
  assert (Hfast : negb (CEState_eqb (__CE_state (world s) this) custom) = true).
  { apply negb_true_iff. destruct (CEState_eqb _ _) eqn:E; [| reflexivity].
    apply CEState_eqb_eq in E. contradiction. }
  repeat split; intros; run_op; rewrite Hfast; reflexivity.
Qed.

Lemma C6_non_custom_nodes_witness :
  run (PatchElement.setAttribute 3 "a" "1") Browser.start
  = run (Native.Element_setAttribute 3 "a" "1") Browser.start.
Proof.
  destruct (C6_non_custom_nodes_take_the_native_path Browser.start 3) as [Hset _];
    [discriminate |].
  apply Hset.
Defined.

(** ** The HTML setters *)

Section HTMLSetter.
Context {W : Type} `{Dom W} `{NativeMethods W} `{UtilitiesModule W}
        `{CustomElementInternals W}.

Lemma notifyRemoved_run removedElements (s : State W) :
  PatchElement.notifyRemoved removedElements s
  = (Returns tt,
     mkState (notifiedWorld removedElements (world s)) (frames s)
             (log s ++ map EvDisconnected (notified removedElements (world s)))).
Proof.
  revert s. induction removedElements as [| element rest IH]; intros s; simpl.
  - unfold ret. rewrite app_nil_r, state_eta. reflexivity.
  - unfold bind, read, when, internals.disconnectedCallback, engine, ret. simpl.
    destruct (CEState_eqb (__CE_state (world s) element) custom); simpl;
      rewrite IH; simpl; rewrite <- ?app_assoc; reflexivity.
Qed.

(** Up to the registry test, the setter is deterministic: it collects,
    calls the native setter, and notifies. *)
Lemma HTMLsetter_run property (baseDescriptor : Descriptor W) patchCallback
      this htmlString (s : State W) w1 :
  descriptor_set baseDescriptor this htmlString (world s) = inr (tt, w1) ->
  PatchElement.patch_HTMLsetter property baseDescriptor patchCallback this htmlString s
  = (hasRegistry <- PatchElement.ownerDocument_CE_hasRegistry this ;;
     (if negb hasRegistry
      then patchCallback this internals.patchTree
             (Build_Memo (parentNode (world s) this) (previousSibling (world s) this)
                         (nextSibling (world s) this))
      else patchCallback this internals.patchAndUpgradeTree
             (Build_Memo (parentNode (world s) this) (previousSibling (world s) this)
                         (nextSibling (world s) this))) ;;
     ret htmlString)
      (mkState (notifiedWorld (removedBy (world s) this) w1) (frames s)
               (log s ++ EvNative (Call_set property this htmlString)
                      :: map EvDisconnected (notified (removedBy (world s) this) w1))).
Proof.
  intros Hnative.
  unfold PatchElement.patch_HTMLsetter, removedBy, Utilities.isConnected,
    Utilities.walkDeepDescendantElements.
  unfold bind at 1. unfold read at 1. simpl.
  destruct (util_isConnected (world s) this); simpl.
  - unfold bind at 1. unfold bind at 1. unfold read at 1. simpl. unfold ret at 1.
    unfold bind at 1. unfold read at 1. simpl.
    unfold bind at 1. unfold read at 1. simpl.
    unfold bind at 1. unfold read at 1. simpl.
    unfold bind at 1. unfold native at 1. simpl. rewrite Hnative.
    unfold bind at 1. rewrite notifyRemoved_run. simpl.
    rewrite <- app_assoc. reflexivity.
  - unfold bind at 1. unfold ret at 1.
    unfold bind at 1. unfold read at 1. simpl.
    unfold bind at 1. unfold read at 1. simpl.
    unfold bind at 1. unfold read at 1. simpl.
    unfold bind at 1. unfold native at 1. simpl. rewrite Hnative.
    unfold bind at 1. unfold ret at 1. reflexivity.
Qed.

Lemma HTMLsetter_trace (P : Event -> bool) property (baseDescriptor : Descriptor W)
      patchCallback this htmlString (s : State W) w1 :
  descriptor_set baseDescriptor this htmlString (world s) = inr (tt, w1) ->
  (forall d n,
      ownerDocument (notifiedWorld (removedBy (world s) this) w1) this = Some d ->
      P (if __CE_hasRegistry (notifiedWorld (removedBy (world s) this) w1) d
         then EvPatchAndUpgradeTree n else EvPatchTree n) = true) ->
  (forall (patchFunction : Node -> M W unit) memo,
      (forall n, emits P (patchFunction n)) ->
      emits P (patchCallback this patchFunction memo)) ->
  exists t3,
    added (PatchElement.patch_HTMLsetter property baseDescriptor patchCallback
                                         this htmlString) s
          (EvNative (Call_set property this htmlString)
           :: map EvDisconnected (notified (removedBy (world s) this) w1) ++ t3)
    /\ forallb P t3 = true.
Proof.
  intros Hnative Hsel Hcb. unfold added, exec.
  rewrite (HTMLsetter_run property baseDescriptor patchCallback this htmlString s Hnative).
  set (w2 := notifiedWorld (removedBy (world s) this) w1) in *.
  set (memo := Build_Memo _ _ _).
  set (s2 := mkState w2 _ _).
  assert (Htail : forall (m : M W unit),
             emits P m ->
             exists t3, log (snd ((m ;; ret htmlString) s2)) = log s2 ++ t3
                        /\ forallb P t3 = true).
  { intros m Hm.
    destruct (emits_bind (fun _ => ret htmlString) Hm
                         (fun _ => emits_ret P htmlString) s2) as [t3 [Hl [Hp _]]].
    exists t3. auto. }
  assert (Hdone : forall t3, log s2 ++ t3
                             = log s ++ EvNative (Call_set property this htmlString)
                                 :: map EvDisconnected (notified (removedBy (world s) this) w1)
                                 ++ t3).
  { intros t3. unfold s2. simpl. rewrite <- app_assoc. reflexivity. }
  unfold PatchElement.ownerDocument_CE_hasRegistry.
  unfold bind at 1. unfold bind at 1. unfold read at 1.
  change (world s2) with w2.
  destruct (ownerDocument w2 this) as [d |] eqn:Hdoc.
  - unfold read at 1. change (world s2) with w2.
    specialize (Hsel d).
    destruct (__CE_hasRegistry w2 d); simpl.
    + destruct (Htail (patchCallback this internals.patchAndUpgradeTree memo))
        as [t3 [Hl Hp]].
      { apply Hcb. intro n. apply emits_engine. apply Hsel. reflexivity. }
      exists t3. rewrite <- Hdone. auto.
    + destruct (Htail (patchCallback this internals.patchTree memo))
        as [t3 [Hl Hp]].
      { apply Hcb. intro n. apply emits_engine. apply Hsel. reflexivity. }
      exists t3. rewrite <- Hdone. auto.
  - exists []. rewrite <- Hdone. unfold throw. simpl. rewrite app_nil_r. auto.
Qed.

(** The [outerHTML] setter of an element that has a parent and an owner
    document comes, once the native setter has returned, to its patch
    callback with the patch function that the registry flag selects. *)
Lemma outerHTML_run (baseDescriptor : Descriptor W) fuel this htmlString
      (s : State W) w1 d parent :
  descriptor_set baseDescriptor this htmlString (world s) = inr (tt, w1) ->
  ownerDocument (notifiedWorld (removedBy (world s) this) w1) this = Some d ->
  parentNode (world s) this = Some parent ->
  run (PatchElement.patch_outerHTML baseDescriptor fuel this htmlString) s
  = (PatchElement.outerHTML_patchCallback
       fuel this
       (fun n => engine
                   (patchEvent
                      (__CE_hasRegistry (notifiedWorld (removedBy (world s) this) w1) d) n)
                   (patchEffect
                      (__CE_hasRegistry (notifiedWorld (removedBy (world s) this) w1) d) n))
       (Build_Memo (Some parent) (previousSibling (world s) this)
                   (nextSibling (world s) this)) ;;
     ret htmlString)
      (mkState (notifiedWorld (removedBy (world s) this) w1) (frames s)
               (log s ++ EvNative (Call_set "outerHTML" this htmlString)
                      :: map EvDisconnected (notified (removedBy (world s) this) w1))).
Proof.
  intros Hnative Hdoc Hparent.
  unfold run, PatchElement.patch_outerHTML.
  rewrite (HTMLsetter_run _ _ _ _ _ _ Hnative).
  unfold PatchElement.ownerDocument_CE_hasRegistry.
  unfold bind at 1. unfold bind at 1. unfold read at 1. simpl.
  rewrite Hdoc. unfold read at 1. simpl.
  rewrite Hparent. unfold bind.
  destruct (__CE_hasRegistry _ d); reflexivity.
Qed.

(** The callback, for an element that had a sibling, when the patch
    function leaves the sibling links alone. *)
Lemma outerHTML_patchCallback_run fuel node (event : Node -> Event)
      (effect : Node -> W -> W) parent previous next nodes (htmlString : string)
      (s2 : State W) :
  previous <> None \/ next <> None ->
  keepsSiblings effect ->
  SiblingsUpTo (world s2) (firstReplacement (world s2) parent previous) next nodes ->
  List.length nodes <= fuel ->
  (PatchElement.outerHTML_patchCallback
     fuel node (fun n => engine (event n) (effect n))
     (Build_Memo (Some parent) previous next) ;;
   ret htmlString) s2
  = (Returns htmlString,
     mkState (applied effect nodes (world s2)) (frames s2) (log s2 ++ map event nodes)).
Proof.
  intros Hsibling Hkeeps Hupto Hfuel.
  unfold PatchElement.outerHTML_patchCallback. simpl memo_parentNode.
  cbv iota. unfold memo_previousSibling, memo_nextSibling.
  assert (Hloop :
            (sibling <-
             match previous with
             | Some p =>
                 afterPrevious <- read (fun w => nextSibling w p) ;;
                 match afterPrevious with
                 | Some x => ret (Some x)
                 | None => read (fun w => firstChild w parent)
                 end
             | None => read (fun w => firstChild w parent)
             end ;;
             PatchElement.patchSiblings fuel (fun n => engine (event n) (effect n))
                                        sibling next) s2
            = (Returns tt,
               mkState (applied effect nodes (world s2)) (frames s2)
                       (log s2 ++ map event nodes))).
  { unfold firstReplacement in Hupto.
    destruct previous as [p |].
    - unfold bind at 1. unfold bind at 1. unfold read at 1.
      destruct (nextSibling (world s2) p) as [x |].
      + unfold ret at 1. apply patchSiblings_run; assumption.
      + unfold read at 1. apply patchSiblings_run; assumption.
    - unfold bind at 1. unfold read at 1. apply patchSiblings_run; assumption. }
  destruct previous as [p |].
  - unfold bind at 1. rewrite Hloop. reflexivity.
  - destruct next as [x |].
    + unfold bind at 1. rewrite Hloop. reflexivity.
    + destruct Hsibling as [Hsibling | Hsibling]; contradiction.
Qed.

Lemma disconnectedCalls_app (t1 t2 : list Event) :
  disconnectedCalls (t1 ++ t2) = disconnectedCalls t1 ++ disconnectedCalls t2.
Proof. apply flat_map_app. Qed.

Lemma disconnectedCalls_map (elements : list Node) :
  disconnectedCalls (map EvDisconnected elements) = elements.
Proof.
  induction elements as [| e rest IH]; simpl; [| rewrite IH]; reflexivity.
Qed.

Lemma disconnectedCalls_none (t : list Event) :
  forallb (fun e => negb (isDisconnected e)) t = true -> disconnectedCalls t = [].
Proof.
  induction t as [| e rest IH]; simpl; [reflexivity |].
  intros Ht. apply andb_true_iff in Ht. destruct Ht as [He Hrest].
  rewrite (IH Hrest). destruct e; simpl in *; try reflexivity; discriminate.
Qed.

Lemma notified_incl (removedElements : list Node) (w : W) (element : Node) :
  In element (notified removedElements w) -> In element removedElements.
Proof.
  revert w. induction removedElements as [| e rest IH]; intros w; simpl; [auto |].
  destruct (CEState_eqb (__CE_state w e) custom); simpl; intros Hin.
  - destruct Hin as [-> | Hin]; eauto.
  - eauto.
Qed.

Lemma notified_filter (removedElements : list Node) (w : W) :
  statePreserving ->
  notified removedElements w
  = filter (fun e => CEState_eqb (__CE_state w e) custom) removedElements.
Proof.
  intros Hstable. revert w.
  induction removedElements as [| e rest IH]; intros w; simpl; [reflexivity |].
  destruct (CEState_eqb (__CE_state w e) custom); rewrite IH; [| reflexivity].
  f_equal. apply filter_ext. intros a. rewrite Hstable. reflexivity.
Qed.

Lemma removedBy_not_target (w : W) (this : Node) : ~ In this (removedBy w this).
Proof.
  unfold removedBy. destruct (util_isConnected w this); [| auto].
  intros Hin. apply filter_In in Hin. destruct Hin as [_ Hneq].
  rewrite Nat.eqb_refl in Hneq. discriminate.
Qed.
End HTMLSetter.

(** ** C7: the registry decides between patching and upgrading *)

(** C7.  [cloneNode] and the patched [innerHTML] and [outerHTML] setters
    call [patchAndUpgradeTree] on the new nodes if and only if the owner
    document of the receiver is associated with the registry, and
    [patchTree] otherwise.  [cloneNode] makes the one call on the clone,
    [innerHTML] on the receiver.  [outerHTML] makes calls of the selected
    kind only: set on an only child, one call, on the parent; set on an
    element that had a sibling, one call for each node of the sibling chain
    from the node that follows the former previous sibling (the first child
    of the parent when there is no such node) up to the former next sibling.
    The loop reads [nextSibling] after each call, so the chain is pinned
    for a patch function that leaves the sibling links alone.  The
    association is the truthiness of the owner document's [__CE_registry]
    in [cloneNode] and of its [__CE_hasRegistry] in the setters, read once
    the native call (and, in the setters, the notification loop) is over. *)
Theorem C7_registry_decides_patch_or_upgrade
        {W : Type} {D : Dom W} {N : NativeMethods W} {U : UtilitiesModule W}
        {I : CustomElementInternals W} (s : State W) :
  (forall this deep clone w' d,
      native_cloneNode this deep (world s) = inr (clone, w') ->
      ownerDocument w' this = Some d ->
      added (PatchNode.cloneNode this deep) s
            [EvPush; EvNative (Call_cloneNode this deep);
             if __CE_registry w' d then EvPatchAndUpgradeTree clone else EvPatchTree clone;
             EvPop])
  /\ (forall baseDescriptor this htmlString w1 d,
      descriptor_set baseDescriptor this htmlString (world s) = inr (tt, w1) ->
      ownerDocument (notifiedWorld (removedBy (world s) this) w1) this = Some d ->
      added (PatchElement.patch_innerHTML baseDescriptor this htmlString) s
            (EvNative (Call_set "innerHTML" this htmlString)
             :: map EvDisconnected (notified (removedBy (world s) this) w1)
             ++ [if __CE_hasRegistry (notifiedWorld (removedBy (world s) this) w1) d
                 then EvPatchAndUpgradeTree this else EvPatchTree this]))
  /\ (forall baseDescriptor fuel this htmlString w1 d,
      descriptor_set baseDescriptor this htmlString (world s) = inr (tt, w1) ->
      ownerDocument (notifiedWorld (removedBy (world s) this) w1) this = Some d ->
      exists t3,
        added (PatchElement.patch_outerHTML baseDescriptor fuel this htmlString) s
              (EvNative (Call_set "outerHTML" this htmlString)
               :: map EvDisconnected (notified (removedBy (world s) this) w1) ++ t3)
        /\ forallb (if __CE_hasRegistry (notifiedWorld (removedBy (world s) this) w1) d
                    then isPatchAndUpgradeTree else isPatchTree) t3 = true)
  /\ (forall baseDescriptor fuel this htmlString w1 d parent,
      descriptor_set baseDescriptor this htmlString (world s) = inr (tt, w1) ->
      ownerDocument (notifiedWorld (removedBy (world s) this) w1) this = Some d ->
      parentNode (world s) this = Some parent ->
      previousSibling (world s) this = None ->
      nextSibling (world s) this = None ->
      let w2 := notifiedWorld (removedBy (world s) this) w1 in
      run (PatchElement.patch_outerHTML baseDescriptor fuel this htmlString) s
      = (Returns htmlString,
         mkState (patchEffect (__CE_hasRegistry w2 d) parent w2) (frames s)
                 (log s ++ EvNative (Call_set "outerHTML" this htmlString)
                        :: map EvDisconnected (notified (removedBy (world s) this) w1)
                        ++ [patchEvent (__CE_hasRegistry w2 d) parent])))
  /\ (forall baseDescriptor fuel this htmlString w1 d parent nodes,
      descriptor_set baseDescriptor this htmlString (world s) = inr (tt, w1) ->
      ownerDocument (notifiedWorld (removedBy (world s) this) w1) this = Some d ->
      parentNode (world s) this = Some parent ->
      previousSibling (world s) this <> None \/ nextSibling (world s) this <> None ->
      let w2 := notifiedWorld (removedBy (world s) this) w1 in
      keepsSiblings (patchEffect (__CE_hasRegistry w2 d)) ->
      SiblingsUpTo w2 (firstReplacement w2 parent (previousSibling (world s) this))
                   (nextSibling (world s) this) nodes ->
      List.length nodes <= fuel ->
      run (PatchElement.patch_outerHTML baseDescriptor fuel this htmlString) s
      = (Returns htmlString,
         mkState (applied (patchEffect (__CE_hasRegistry w2 d)) nodes w2) (frames s)
                 (log s ++ EvNative (Call_set "outerHTML" this htmlString)
                        :: map EvDisconnected (notified (removedBy (world s) this) w1)
                        ++ map (patchEvent (__CE_hasRegistry w2 d)) nodes))).
Proof.
  split; [| split; [| split; [| split]]].
  - intros this deep clone w' d Hnative Hdoc. run_op.
    rewrite Hnative. simpl. rewrite Hdoc. simpl.
    destruct (__CE_registry w' d); simpl; rewrite <- ?app_assoc; reflexivity.
  - intros baseDescriptor this htmlString w1 d Hnative Hdoc.
    unfold added, exec, PatchElement.patch_innerHTML.
    rewrite (HTMLsetter_run _ _ _ _ _ _ Hnative).
    unfold PatchElement.ownerDocument_CE_hasRegistry, bind, read, ret,
      internals.patchTree, internals.patchAndUpgradeTree, engine. simpl.
    rewrite Hdoc.
    destruct (__CE_hasRegistry _ d); simpl; rewrite <- ?app_assoc; reflexivity.
  - intros baseDescriptor fuel this htmlString w1 d Hnative Hdoc.
    apply HTMLsetter_trace; auto.
    + intros d' n Hdoc'. rewrite Hdoc in Hdoc'. injection Hdoc' as <-.
      destruct (__CE_hasRegistry _ d); reflexivity.
    + intros patchFunction memo Hpatch.
      apply emits_outerHTML_patchCallback, Hpatch.
  - intros baseDescriptor fuel this htmlString w1 d parent
           Hnative Hdoc Hparent Hprevious Hnext w2.
    rewrite (outerHTML_run _ fuel _ _ _ Hnative Hdoc Hparent), Hprevious, Hnext.
    unfold PatchElement.outerHTML_patchCallback, bind, engine, ret. simpl.
    rewrite <- app_assoc. reflexivity.
  - intros baseDescriptor fuel this htmlString w1 d parent nodes
           Hnative Hdoc Hparent Hsibling w2 Hkeeps Hupto Hfuel.
    rewrite (outerHTML_run _ fuel _ _ _ Hnative Hdoc Hparent).
    erewrite outerHTML_patchCallback_run;
      [ simpl; rewrite <- app_assoc; reflexivity
      | exact Hsibling | exact Hkeeps | exact Hupto | exact Hfuel ].
Qed.

Lemma C7_registry_decides_witness :
  added (PatchNode.cloneNode 2 true) Browser.start
        [EvPush; EvNative (Call_cloneNode 2 true); EvPatchAndUpgradeTree 9; EvPop]
  /\ added (PatchElement.patch_innerHTML Browser.Element_innerHTML 2 "hello")
           Browser.start
           [EvNative (Call_set "innerHTML" 2 "hello"); EvDisconnected 4;
            EvPatchAndUpgradeTree 2]
  /\ run (PatchElement.patch_outerHTML Browser.Element_outerHTML 1 5 "hello")
         Browser.start
     = (Returns "hello",
        mkState (world (exec (PatchElement.patch_outerHTML
                                Browser.Element_outerHTML 1 5 "hello") Browser.start))
                0
                [EvNative (Call_set "outerHTML" 5 "hello"); EvPatchAndUpgradeTree 9]).
Proof.
  destruct (C7_registry_decides_patch_or_upgrade Browser.start)
    as [Hclone [Hinner [_ [_ Houter]]]].
  split; [| split].
  - exact (Hclone 2 true 9
                  (world (exec (Native.Node_cloneNode 2 true) Browser.start)) 0
                  eq_refl eq_refl).
  - exact (Hinner Browser.Element_innerHTML 2 "hello"
                  (world (exec (native (Call_set "innerHTML" 2 "hello")
                                       (Browser.set_children 2 "hello"))
                               Browser.start)) 0
                  eq_refl eq_refl).
  - refine (Houter Browser.Element_outerHTML 1 5 "hello"
                   (world (exec (native (Call_set "outerHTML" 5 "hello")
                                        (descriptor_set Browser.Element_outerHTML
                                                        5 "hello"))
                                Browser.start)) 0 2 [9]
                   eq_refl eq_refl eq_refl _ (Browser_patch_keepsSiblings true) _
                   (le_n 1)).
    + left. vm_compute. discriminate.
    + vm_compute. apply upto_next; [reflexivity |]. vm_compute. apply upto_end.
Defined.

(** ** C10: who is told of a disconnection by the HTML setters *)

(** C10.  When the native setter returns, the patched [innerHTML] and
    [outerHTML] setters hand to [disconnectedCallback] exactly the elements
    that were collected from the subtree of the target before the native
    setter ran and whose state is [custom] when their turn comes, in the
    order of collection.  The target itself is not among them, every one of
    them was in the subtree, and when [disconnectedCallback] leaves the
    custom-element states alone they are the collected elements whose state
    is [custom] once the native setter has run.  When the target is not
    connected there are none. *)
Theorem C10_html_setters_notify_removed_custom_elements
        {W : Type} {D : Dom W} {N : NativeMethods W} {U : UtilitiesModule W}
        {I : CustomElementInternals W} (s : State W)
        (baseDescriptor : Descriptor W) (this : Node) (htmlString : string) (w1 : W) :
  descriptor_set baseDescriptor this htmlString (world s) = inr (tt, w1) ->
  notifies (PatchElement.patch_innerHTML baseDescriptor this htmlString) s
           (notified (removedBy (world s) this) w1)
  /\ (forall fuel,
         notifies (PatchElement.patch_outerHTML baseDescriptor fuel this htmlString) s
                  (notified (removedBy (world s) this) w1))
  /\ ~ In this (notified (removedBy (world s) this) w1)
  /\ (forall element,
         In element (notified (removedBy (world s) this) w1) ->
         In element (util_walkDeepDescendantElements (world s) this))
  /\ (statePreserving ->
      notified (removedBy (world s) this) w1
      = filter (fun element => CEState_eqb (__CE_state w1 element) custom)
               (removedBy (world s) this))
  /\ (util_isConnected (world s) this = false ->
      notified (removedBy (world s) this) w1 = []).
Proof.
  intros Hnative.
  assert (Hnotifies :
            forall property patchCallback,
              (forall (patchFunction : Node -> M W unit) memo,
                  (forall n, emits (fun e => negb (isDisconnected e)) (patchFunction n)) ->
                  emits (fun e => negb (isDisconnected e))
                        (patchCallback this patchFunction memo)) ->
              notifies (PatchElement.patch_HTMLsetter property baseDescriptor
                                                      patchCallback this htmlString) s
                       (notified (removedBy (world s) this) w1)).
  { intros property patchCallback Hcb.
    assert (Htrace :
              exists t3,
                added (PatchElement.patch_HTMLsetter property baseDescriptor
                                                     patchCallback this htmlString) s
                      (EvNative (Call_set property this htmlString)
                       :: map EvDisconnected (notified (removedBy (world s) this) w1)
                       ++ t3)
                /\ forallb (fun e => negb (isDisconnected e)) t3 = true).
    { apply HTMLsetter_trace; auto.
      intros d n _. destruct (__CE_hasRegistry _ d); reflexivity. }
    destruct Htrace as [t3 [Hadded Hquiet]].
    eexists. split; [exact Hadded |].
    simpl. rewrite disconnectedCalls_app, disconnectedCalls_map,
      (disconnectedCalls_none _ Hquiet), app_nil_r. reflexivity. }
  repeat split.
  - apply Hnotifies. intros patchFunction memo Hpatch. apply Hpatch.
  - intros fuel. apply Hnotifies. intros patchFunction memo Hpatch.
    apply emits_outerHTML_patchCallback, Hpatch.
  - intros Hin. apply notified_incl in Hin. exact (removedBy_not_target _ _ Hin).
  - intros element Hin. apply notified_incl in Hin. unfold removedBy in Hin.
    destruct (util_isConnected (world s) this); [| contradiction].
    apply filter_In in Hin. tauto.
  - intros Hstable. apply notified_filter, Hstable.
  - intros Hdetached. unfold removedBy. rewrite Hdetached. reflexivity.
Qed.

Lemma C10_html_setters_witness :
  notifies (PatchElement.patch_innerHTML Browser.Element_innerHTML 2 "") Browser.start [4]
  /\ notifies (PatchElement.patch_outerHTML Browser.Element_outerHTML 8 2 "") Browser.start [4].
Proof.
  destruct (C10_html_setters_notify_removed_custom_elements
              Browser.start Browser.Element_innerHTML 2 ""
              (w1 := world (exec (native (Call_set "innerHTML" 2 "")
                                         (Browser.set_children 2 ""))
                                 Browser.start)) eq_refl) as [Hinner _].
  destruct (C10_html_setters_notify_removed_custom_elements
              Browser.start Browser.Element_outerHTML 2 ""
              (w1 := world (exec (native (Call_set "outerHTML" 2 "")
                                         (descriptor_set Browser.Element_outerHTML 2 ""))
                                 Browser.start)) eq_refl) as [_ [Houter _]].
  split; [exact Hinner | exact (Houter 8)].
Defined.

(** ** C8: the range of [insertAdjacentHTML] is fixed before any upgrade *)

Section Range.
Context {W : Type} `{Dom W} `{NativeMethods W} `{UtilitiesModule W}
        `{CustomElementInternals W}.

(** The first loop reads and changes nothing; when it returns, it returns
    the range. *)
Lemma rangeNodes_inv fuel start end_ (s : State W) :
  snd (PatchElement.rangeNodes fuel start end_ s) = s
  /\ forall nodes,
      fst (PatchElement.rangeNodes fuel start end_ s) = Returns nodes ->
      SiblingRange (world s) start end_ nodes.
Proof.
  revert start. induction fuel as [| fuel IH]; intros start;
    cbn [PatchElement.rangeNodes].
  - destruct (node_eqb start end_) eqn:E; simpl.
    + split; [reflexivity |]. intros nodes [= <-]. constructor. exact E.
    + split; [reflexivity |]. discriminate.
  - destruct (node_eqb start end_) eqn:E; simpl.
    + split; [reflexivity |]. intros nodes [= <-]. constructor. exact E.
    + destruct start as [n |]; simpl; [| split; [reflexivity | discriminate]].
      unfold bind, read, ret. simpl.
      destruct (IH (nextSibling (world s) n)) as [Hstate Hrange].
      destruct (PatchElement.rangeNodes fuel (nextSibling (world s) n) end_ s)
        as [[rest | e |] s']; simpl in *; subst s';
        split; try reflexivity; try discriminate.
      intros nodes [= <-]. constructor; auto.
Qed.

(** With fuel for one more step than the range is long, it does return. *)
Lemma rangeNodes_run fuel start end_ nodes (s : State W) :
  SiblingRange (world s) start end_ nodes ->
  List.length nodes < fuel ->
  PatchElement.rangeNodes fuel start end_ s = (Returns nodes, s).
Proof.
  intros Hrange. revert fuel.
  induction Hrange as [start end_ E | n end_ rest E Hrest IH]; intros fuel Hfuel.
  - destruct fuel; cbn [PatchElement.rangeNodes]; rewrite E; reflexivity.
  - destruct fuel as [| fuel]; [inversion Hfuel |].
    cbn [PatchElement.rangeNodes]. rewrite E.
    unfold bind, read, ret. simpl.
    rewrite IH; [reflexivity |]. simpl in Hfuel. lia.
Qed.

Lemma SiblingRange_unique (w : W) start end_ nodes nodes' :
  SiblingRange w start end_ nodes -> SiblingRange w start end_ nodes' -> nodes = nodes'.
Proof.
  intros Hrange. revert nodes'.
  induction Hrange as [start end_ E | n end_ rest E Hrest IH];
    intros nodes' Hrange'; inversion Hrange'; subst; try congruence.
  f_equal. auto.
Qed.

Lemma upgradeEach_run nodes (s : State W) :
  PatchElement.upgradeEach nodes s
  = (Returns tt,
     mkState (upgraded nodes (world s)) (frames s)
             (log s ++ map EvPatchAndUpgradeTree nodes)).
Proof.
  revert s. induction nodes as [| node rest IH]; intros s; simpl.
  - unfold ret. rewrite app_nil_r, state_eta. reflexivity.
  - unfold bind, internals.patchAndUpgradeTree, engine. simpl.
    rewrite IH. simpl. rewrite <- app_assoc. reflexivity.
Qed.

Lemma upgradeNodesInRange_run fuel start end_ nodes (s : State W) :
  SiblingRange (world s) start end_ nodes ->
  List.length nodes < fuel ->
  PatchElement.upgradeNodesInRange fuel start end_ s
  = (Returns tt,
     mkState (upgraded nodes (world s)) (frames s)
             (log s ++ map EvPatchAndUpgradeTree nodes)).
Proof.
  intros Hrange Hfuel. unfold PatchElement.upgradeNodesInRange, bind.
  rewrite (@rangeNodes_run fuel start end_ nodes s Hrange Hfuel). apply upgradeEach_run.
Qed.

(** When the walk does not return, nothing has been upgraded. *)
Lemma upgradeNodesInRange_failed fuel start end_ (s : State W) :
  match PatchElement.upgradeNodesInRange fuel start end_ s with
  | (Returns _, _) => True
  | (_, s') => s' = s
  end.
Proof.
  unfold PatchElement.upgradeNodesInRange, bind.
  destruct (rangeNodes_inv fuel start end_ s) as [Hstate Hrange].
  destruct (PatchElement.rangeNodes fuel start end_ s) as [[nodes | e |] s'];
    simpl in *; subst s'; try reflexivity.
  rewrite upgradeEach_run. exact Logic.I.
Qed.

(** A chain that ends before the end of the range is met: the walk reads
    [nextSibling] of [null]. *)
Lemma rangeNodes_runs_out fuel start end_ steps (s : State W) :
  SiblingsRunOut (world s) start end_ steps ->
  steps < fuel ->
  PatchElement.rangeNodes fuel start end_ s
  = (Throws (TypeError "Cannot read properties of null (reading 'nextSibling')"), s).
Proof.
  intros Hout. revert fuel.
  induction Hout as [end_ E | n end_ steps E Hrest IH]; intros fuel Hfuel;
    (destruct fuel as [| fuel]; [inversion Hfuel |]);
    cbn [PatchElement.rangeNodes]; rewrite E.
  - reflexivity.
  - unfold bind, read. simpl. rewrite IH; [reflexivity | lia].
Qed.
End Range.

(** Conclude a branch of [insertAdjacentHTML] that did not return from what
    is known, by [cases], of the call of [upgradeNodesInRange] it ends
    with. *)
Ltac finish_range cases :=
  match goal with
  | |- context [PatchElement.upgradeNodesInRange ?f ?a ?b ?s1] =>
      let Hc := fresh "Hc" in
      pose proof (cases f a b s1) as Hc;
      destruct (PatchElement.upgradeNodesInRange f a b s1) as [[[] | e |] s'];
      simpl in Hc |- *;
      intros o s'' Hrun Hfailed; injection Hrun as <- <-;
      [ contradiction | exact Hc .. ]
  end.

(** Evaluate the comparisons of a known position with the four names. *)
Ltac decide_positions :=
  repeat match goal with
         | |- context [String.eqb ?a ?b] =>
             let v := eval vm_compute in (String.eqb a b) in
             change (String.eqb a b) with v
         end;
  cbv iota.

(** C8.  [upgradeNodesInRange] walks the sibling chain from the start of the
    range up to, and excluding, its end without calling anything, and only
    then hands the nodes it collected to [patchAndUpgradeTree], one after
    the other.  So for every behaviour of [patchAndUpgradeTree] the nodes
    visited are the range as the tree linked it before the first upgrade,
    in order; and when the chain ends before the end of the range is met,
    the walk fails before anything is upgraded.  The patched
    [insertAdjacentHTML] hands it, once the native insertion has returned,
    the range that holds the inserted nodes: for [beforebegin], from the
    former previous sibling (from the first child of the parent when there
    was none) to the receiver; for [afterbegin], from the first child to the
    former first child; for [beforeend], from the former last child (from
    the first child when there was none) to the end of the chain; for
    [afterend], from the next sibling to the former next sibling.  When it
    does not return after the native insertion, it has upgraded nothing. *)
Theorem C8_range_is_materialized_before_upgrades
        {W : Type} {D : Dom W} {N : NativeMethods W} {U : UtilitiesModule W}
        {I : CustomElementInternals W} (s : State W) :
  (forall fuel start end_ nodes,
      SiblingRange (world s) start end_ nodes ->
      List.length nodes < fuel ->
      run (PatchElement.upgradeNodesInRange fuel start end_) s
      = (Returns tt,
         mkState (upgraded nodes (world s)) (frames s)
                 (log s ++ map EvPatchAndUpgradeTree nodes)))
  /\ (forall fuel start end_ steps,
      SiblingsRunOut (world s) start end_ steps ->
      steps < fuel ->
      run (PatchElement.upgradeNodesInRange fuel start end_) s
      = (Throws (TypeError "Cannot read properties of null (reading 'nextSibling')"), s))
  /\ (forall baseMethod fuel this position text w1,
      baseMethod this (toLowerCase position) text (world s) = inr (tt, w1) ->
      let m := PatchElement.patch_insertAdjacentHTML baseMethod fuel this position text in
      let call := Call_insertAdjacentHTML this (toLowerCase position) text in
      (toLowerCase position = "beforebegin" ->
       match previousSibling (world s) this with
       | Some marker => upgradesRange m s call w1 fuel (Some marker) (Some this)
       | None =>
           forall parent,
             parentNode w1 this = Some parent ->
             upgradesRange m s call w1 fuel (firstChild w1 parent) (Some this)
       end)
      /\ (toLowerCase position = "afterbegin" ->
          upgradesRange m s call w1 fuel (firstChild w1 this) (firstChild (world s) this))
      /\ (toLowerCase position = "beforeend" ->
          upgradesRange m s call w1 fuel
                        (match lastChild (world s) this with
                         | Some marker => Some marker
                         | None => firstChild w1 this
                         end)
                        None)
      /\ (toLowerCase position = "afterend" ->
          upgradesRange m s call w1 fuel (nextSibling w1 this) (nextSibling (world s) this))
      /\ (validPosition position = true ->
          forall o s',
            run m s = (o, s') -> o <> Returns tt ->
            s' = mkState w1 (frames s) (log s ++ [EvNative call]))).
Proof.
  split; [| split].
  - intros fuel start end_ nodes Hrange Hfuel.
    apply upgradeNodesInRange_run; assumption.
  - intros fuel start end_ steps Hout Hfuel.
    unfold run, PatchElement.upgradeNodesInRange, bind.
    rewrite (rangeNodes_runs_out s Hout Hfuel). reflexivity.
  - intros baseMethod fuel this position text w1 Hnative m call.
    assert (Hupgrade :
              forall start end_ nodes,
                SiblingRange w1 start end_ nodes ->
                List.length nodes < fuel ->
                PatchElement.upgradeNodesInRange
                  fuel start end_ (mkState w1 (frames s) (log s ++ [EvNative call]))
                = (Returns tt,
                   mkState (upgraded nodes w1) (frames s)
                           (log s ++ EvNative call :: map EvPatchAndUpgradeTree nodes))).
    { intros start end_ nodes Hrange Hfuel.
      rewrite (@upgradeNodesInRange_run W D I fuel start end_ nodes
                 (mkState w1 (frames s) (log s ++ [EvNative call])) Hrange Hfuel).
      simpl. rewrite <- app_assoc. reflexivity. }
    subst m call. unfold upgradesRange, run, PatchElement.patch_insertAdjacentHTML.
    cbv zeta.
    split; [| split; [| split; [| split]]].
    + intros Hposition. rewrite Hposition in *. decide_positions.
      destruct (previousSibling (world s) this) as [marker |] eqn:Hmarker.
      * intros nodes Hrange Hfuel.
        unfold bind at 1. unfold read at 1. unfold bind at 1. unfold native at 1.
        rewrite Hnative. unfold bind at 1. rewrite Hmarker. unfold ret at 1.
        apply Hupgrade; assumption.
      * intros parent Hparent nodes Hrange Hfuel.
        unfold bind at 1. unfold read at 1. unfold bind at 1. unfold native at 1.
        rewrite Hnative. unfold bind at 1. rewrite Hmarker.
        unfold PatchElement.parentNode_firstChild, bind at 1, read at 1. simpl.
        rewrite Hparent. unfold read at 1. simpl.
        apply Hupgrade; assumption.
    + intros Hposition nodes Hrange Hfuel. rewrite Hposition in *. decide_positions.
      unfold bind at 1. unfold read at 1. unfold bind at 1. unfold native at 1.
      rewrite Hnative. unfold bind at 1. unfold read at 1. simpl.
      apply Hupgrade; assumption.
    + intros Hposition nodes Hrange Hfuel. rewrite Hposition in *. decide_positions.
      unfold bind at 1. unfold read at 1. unfold bind at 1. unfold native at 1.
      rewrite Hnative. unfold bind at 1.
      destruct (lastChild (world s) this) as [marker |].
      * unfold ret at 1. apply Hupgrade; assumption.
      * unfold read at 1. simpl. apply Hupgrade; assumption.
    + intros Hposition nodes Hrange Hfuel. rewrite Hposition in *. decide_positions.
      unfold bind at 1. unfold read at 1. unfold bind at 1. unfold native at 1.
      rewrite Hnative. unfold bind at 1. unfold read at 1. simpl.
      apply Hupgrade; assumption.
    + unfold validPosition. cbv zeta. intros Hvalid.
      destruct (toLowerCase position =? "beforebegin")%string.
      { unfold bind at 1. unfold read at 1. unfold bind at 1. unfold native at 1.
        rewrite Hnative. unfold bind at 1.
        destruct (previousSibling (world s) this) as [marker |].
        - unfold ret at 1. finish_range (@upgradeNodesInRange_failed W D I).
        - unfold PatchElement.parentNode_firstChild, bind at 1, read at 1. simpl.
          destruct (parentNode w1 this) as [p |].
          + unfold read at 1. simpl. finish_range (@upgradeNodesInRange_failed W D I).
          + intros o s' Hrun _. injection Hrun as <- <-. reflexivity. }
      destruct (toLowerCase position =? "afterbegin")%string.
      { unfold bind at 1. unfold read at 1. unfold bind at 1. unfold native at 1.
        rewrite Hnative. unfold bind at 1. unfold read at 1. simpl.
        finish_range (@upgradeNodesInRange_failed W D I). }
      destruct (toLowerCase position =? "beforeend")%string.
      { unfold bind at 1. unfold read at 1. unfold bind at 1. unfold native at 1.
        rewrite Hnative. unfold bind at 1.
        destruct (lastChild (world s) this) as [marker |].
        - unfold ret at 1. finish_range (@upgradeNodesInRange_failed W D I).
        - unfold read at 1. simpl. finish_range (@upgradeNodesInRange_failed W D I). }
      destruct (toLowerCase position =? "afterend")%string.
      { unfold bind at 1. unfold read at 1. unfold bind at 1. unfold native at 1.
        rewrite Hnative. unfold bind at 1. unfold read at 1. simpl.
        finish_range (@upgradeNodesInRange_failed W D I). }
      discriminate.
Qed.

Lemma C8_range_witness :
  run (@PatchElement.upgradeNodesInRange _ Browser.dom Unruly.engines 3 (Some 2) None)
      Browser.start
  = (Returns tt,
     mkState (@upgraded _ Unruly.engines [2; 3] Browser.page) 0
             [EvPatchAndUpgradeTree 2; EvPatchAndUpgradeTree 3])
  /\ nextSibling (@upgraded _ Unruly.engines [2] Browser.page) 2 = None
  /\ run (@PatchElement.patch_insertAdjacentHTML
            _ Browser.dom Unruly.engines Browser.Element_insertAdjacentHTML
            3 2 "BeforeEnd" "hello") Browser.start
     = (Returns tt,
        mkState (@upgraded _ Unruly.engines [5; 9]
                   (world (exec (native (Call_insertAdjacentHTML 2 "beforeend" "hello")
                                        (Browser.Element_insertAdjacentHTML
                                           2 "beforeend" "hello"))
                                Browser.start)))
                0
                [EvNative (Call_insertAdjacentHTML 2 "beforeend" "hello");
                 EvPatchAndUpgradeTree 5; EvPatchAndUpgradeTree 9])
  /\ Browser.children
       (Browser.data
          (world (exec (@PatchElement.patch_insertAdjacentHTML
                          _ Browser.dom Unruly.engines Browser.Element_insertAdjacentHTML
                          3 2 "BeforeEnd" "hello") Browser.start)) 2)
     = [4; 5].
Proof.
  destruct (@C8_range_is_materialized_before_upgrades
              _ Browser.dom Browser.natives Browser.utilities Unruly.engines
              Browser.start) as [Hrange [_ Hinsert]].
  split; [| split; [reflexivity | split; [| reflexivity]]].
  - refine (Hrange 3 (Some 2) None [2; 3] _ _).
    + exact (@range_next _ Browser.dom Browser.page 2 None [3] eq_refl
               (@range_next _ Browser.dom Browser.page 3 None [] eq_refl
                  (@range_done _ Browser.dom Browser.page None None eq_refl))).
    + repeat constructor.
  - destruct (Hinsert Browser.Element_insertAdjacentHTML 3 2 "BeforeEnd" "hello"
                      (world (exec (native (Call_insertAdjacentHTML 2 "beforeend" "hello")
                                           (Browser.Element_insertAdjacentHTML
                                              2 "beforeend" "hello"))
                                   Browser.start))
                      eq_refl) as [_ [_ [Hbeforeend _]]].
    refine (Hbeforeend eq_refl [5; 9] _ _).
    + vm_compute. apply range_next; [reflexivity |]. vm_compute.
      apply range_next; [reflexivity |]. vm_compute.
      apply range_done. reflexivity.
    + repeat constructor.
Defined.

(** ** C9: programmer-misuse errors *)

Section Misuse.
Context {W : Type} `{Dom W} `{NativeMethods W} `{UtilitiesModule W}
        `{CustomElementInternals W}.

Lemma HTMLsetter_native_throws property (baseDescriptor : Descriptor W) patchCallback
      this htmlString (s : State W) e :
  descriptor_set baseDescriptor this htmlString (world s) = inl e ->
  PatchElement.patch_HTMLsetter property baseDescriptor patchCallback this htmlString s
  = (Throws e, s).
Proof.
  intros Hnative.
  unfold PatchElement.patch_HTMLsetter, Utilities.isConnected,
    Utilities.walkDeepDescendantElements, bind, read, ret, native. simpl.
  destruct (util_isConnected (world s) this); simpl; rewrite Hnative; reflexivity.
Qed.
End Misuse.

(** C9.  The two misuses are answered by an exception thrown to the caller.
    [insertAdjacentHTML] with a position that is none of the four values
    (compared, as the patch does, after lower-casing) throws a SyntaxError
    and has done nothing before: no native call, no change of the world.
    Setting [outerHTML] on an element that has no parent node always ends
    in an exception; when the native setter itself returns (and the element
    has an owner document) it is the Error raised by the patch. *)
Theorem C9_misuse_throws
        {W : Type} {D : Dom W} {N : NativeMethods W} {U : UtilitiesModule W}
        {I : CustomElementInternals W} (s : State W) :
  (forall baseMethod fuel this position text,
      validPosition position = false ->
      run (PatchElement.patch_insertAdjacentHTML baseMethod fuel this position text) s
      = (Throws (SyntaxError
                   (PatchElement.insertAdjacentHTML_badPosition (toLowerCase position))),
         s))
  /\ (forall baseDescriptor fuel this htmlString,
      parentNode (world s) this = None ->
      (exists e,
          outcome (PatchElement.patch_outerHTML baseDescriptor fuel this htmlString) s
          = Throws e)
      /\ (forall w1 d,
             descriptor_set baseDescriptor this htmlString (world s) = inr (tt, w1) ->
             ownerDocument (notifiedWorld (removedBy (world s) this) w1) this = Some d ->
             outcome (PatchElement.patch_outerHTML baseDescriptor fuel this htmlString) s
             = Throws (Error PatchElement.outerHTML_noParent))).
Proof.
  split.
  - intros baseMethod fuel this position text Hvalid.
    unfold run, PatchElement.patch_insertAdjacentHTML, validPosition in *.
    cbv zeta in *.
    destruct (toLowerCase position =? "beforebegin")%string; [discriminate |].
    destruct (toLowerCase position =? "afterbegin")%string; [discriminate |].
    destruct (toLowerCase position =? "beforeend")%string; [discriminate |].
    destruct (toLowerCase position =? "afterend")%string; [discriminate |].
    reflexivity.
  - intros baseDescriptor fuel this htmlString Hparent.
    assert (Hreturned :
              forall w1,
                descriptor_set baseDescriptor this htmlString (world s) = inr (tt, w1) ->
                outcome (PatchElement.patch_outerHTML baseDescriptor fuel this htmlString) s
                = match ownerDocument (notifiedWorld (removedBy (world s) this) w1) this
                  with
                  | Some _ => Throws (Error PatchElement.outerHTML_noParent)
                  | None => Throws (TypeError "Cannot read properties of null")
                  end).
    { intros w1 Hnative. unfold outcome, PatchElement.patch_outerHTML.
      rewrite (HTMLsetter_run _ _ _ _ _ _ Hnative). rewrite Hparent.
      unfold PatchElement.ownerDocument_CE_hasRegistry, bind, read, throw. simpl.
      destruct (ownerDocument _ this) as [d |]; [| reflexivity].
      destruct (__CE_hasRegistry _ d); reflexivity. }
    split.
    + destruct (descriptor_set baseDescriptor this htmlString (world s))
        as [e | [[] w1]] eqn:Hnative.
      * exists e. unfold outcome, PatchElement.patch_outerHTML.
        rewrite (HTMLsetter_native_throws _ _ _ _ _ _ Hnative). reflexivity.
      * rewrite (Hreturned w1 eq_refl).
        destruct (ownerDocument _ this); eauto.
    + intros w1 d Hnative Hdoc. rewrite (Hreturned w1 Hnative), Hdoc. reflexivity.
Qed.

Lemma C9_misuse_witness :
  run (PatchElement.patch_insertAdjacentHTML Browser.Element_insertAdjacentHTML
                                             4 2 "Middle" "<x-a></x-a>") Browser.start
  = (Throws (SyntaxError
               "The value provided (middle) is not one of 'beforebegin', 'afterbegin', 'beforeend', or 'afterend'."),
     Browser.start)
  /\ outcome (PatchElement.patch_outerHTML Browser.Element_outerHTML 4 6 "hello")
             Browser.start
     = Throws (Error "Failed to set the 'outerHTML' property on 'Element': This element has no parent node.").
Proof.
  destruct (C9_misuse_throws Browser.start) as [Hposition Houter].
  split.
  - exact (Hposition Browser.Element_insertAdjacentHTML 4 2 "Middle" "<x-a></x-a>"
                     eq_refl).
  - destruct (Houter Browser.Element_outerHTML 4 6 "hello" eq_refl) as [_ Herror].
    exact (Herror Browser.page 0 eq_refl eq_refl).
Defined.

(** ** A remark on exceptions

    Nothing in Patch/Node.js catches what a native method throws: the
    exception leaves the patched operation before its pop, and the frame
    pushed on entry stays on the stack. *)

Lemma removeChild_throwing_native_keeps_frame
      {W : Type} {D : Dom W} {N : NativeMethods W} {U : UtilitiesModule W}
      {I : CustomElementInternals W} (this node : Node) (s : State W) (e : Exn) :
  native_removeChild this node
    (if connectedElement (world s) node
     then on_disconnectTree node (world s) else world s) = inl e ->
  outcome (PatchNode.removeChild this node) s = Throws e
  /\ frames (exec (PatchNode.removeChild this node) s) = S (frames s).
Proof.
  unfold connectedElement. intros Hnative. run_op.
  destruct (instanceofElement (world s) node && util_isConnected (world s) node);
    simpl; rewrite Hnative; auto.
Qed.

Example removeChild_of_a_stranger :
  outcome (PatchNode.removeChild 1 6) Browser.start
  = Throws (DOMException "NotFoundError")
  /\ frames (exec (PatchNode.removeChild 1 6) Browser.start) = 1.
Proof.
  apply (removeChild_throwing_native_keeps_frame 1 6 Browser.start). reflexivity.
Qed.

(** ** A remark on [insertAdjacentElement]

    The native method answers [null], and inserts nothing, when the
    position lies outside a receiver that has no parent.  The patch has
    tested the connectedness of its argument before the call and tests that
    of the result after it: an argument that was connected is reported to
    [disconnectTree] although it has not moved, and the [null] result goes
    to [Utilities.isConnected]. *)

Lemma insertAdjacentElement_of_nothing_still_disconnects
      {W : Type} {D : Dom W} {N : NativeMethods W} {U : UtilitiesModule W}
      {I : CustomElementInternals W}
      (baseMethod : Node -> string -> Node -> W -> Exn + option Node * W)
      (this : Node) (position : string) (element : Node) (s : State W) (w' : W) :
  baseMethod this position element (world s) = inr (None, w') ->
  util_isConnected (world s) element = true ->
  added (PatchElement.patch_insertAdjacentElement baseMethod this position element) s
        ([EvNative (Call_insertAdjacentElement this position element);
          EvDisconnectTree element]
         ++ match util_isConnected_null (on_disconnectTree element w') with
            | inr true => [EvConnectTree element]
            | _ => []
            end).
Proof.
  intros Hnative Hconnected. run_op. rewrite Hconnected, Hnative. simpl.
  destruct (util_isConnected_null (on_disconnectTree element w')) as [e | []];
    simpl; rewrite <- ?app_assoc; reflexivity.
Qed.

Example insertAdjacentElement_beside_a_detached_element :
  outcome (PatchElement.patch_insertAdjacentElement
             Browser.Element_insertAdjacentElement 6 "beforebegin" 2) Browser.start
  = Throws (TypeError "Cannot read properties of null (reading 'isConnected')")
  /\ log (exec (PatchElement.patch_insertAdjacentElement
                  Browser.Element_insertAdjacentElement 6 "beforebegin" 2) Browser.start)
     = [EvNative (Call_insertAdjacentElement 6 "beforebegin" 2); EvDisconnectTree 2]
  /\ util_isConnected
       (world (exec (PatchElement.patch_insertAdjacentElement
                       Browser.Element_insertAdjacentElement 6 "beforebegin" 2)
                    Browser.start)) 2 = true.
Proof. repeat split; reflexivity. Qed.

(** * Further properties of the two files *)

(** ** When a native method throws *)

Section Exceptions.
Context {W : Type} `{Dom W} `{NativeMethods W} `{UtilitiesModule W}
        `{CustomElementInternals W}.

Lemma leavesOpen_pop : leavesOpen (W := W) internals.popCEReactionsQueue.
Proof. intros s e Hthrow. discriminate. Qed.

Lemma leavesOpen_pop_ret {A} (a : A) :
  leavesOpen (W := W) (internals.popCEReactionsQueue ;; ret a).
Proof. intros s e Hthrow. discriminate. Qed.

Lemma leavesOpen_bind {A B} (m : M W A) (k : A -> M W B) :
  emits notFrameEvent m -> (forall a, leavesOpen (k a)) -> leavesOpen (bind m k).
Proof.
  intros Hm Hk s e He. destruct (Hm s) as [t1 [Hl1 [Hp1 Hf1]]].
  unfold added, exec, outcome, bind in *.
  destruct (m s) as [[a | e1 |] s1]; simpl in *; try discriminate.
  - destruct (Hk a s1 e He) as [t2 [Hl2 [Hp2 Hf2]]].
    unfold added, exec in *.
    exists (t1 ++ t2).
    rewrite Hl2, Hl1, forallb_app, Hp1, Hp2, Hf2, Hf1, <- app_assoc. auto.
  - exists t1. auto.
Qed.

Lemma throws_after_push {A} (m : M W A) s e :
  leavesOpen m ->
  outcome (internals.pushCEReactionsQueue ;; m) s = Throws e ->
  exists t,
    added (internals.pushCEReactionsQueue ;; m) s (EvPush :: t)
    /\ forallb notFrameEvent t = true
    /\ frames (exec (internals.pushCEReactionsQueue ;; m) s) = S (frames s).
Proof.
  intros Hm Hthrow. unfold added, exec, outcome, bind in *. simpl in *.
  destruct (Hm _ _ Hthrow) as [t [Hl [Hp Hf]]].
  unfold added, exec in *. simpl in *.
  exists t. rewrite Hl, Hf, <- app_assoc. auto.
Qed.

Lemma outcome_discard_throws {A} (m : M W A) s e :
  outcome (discard m) s = Throws e -> outcome m s = Throws e.
Proof.
  unfold outcome, discard, bind, ret.
  destruct (m s) as [[a | e1 |] s']; simpl; intros E; congruence.
Qed.
End Exceptions.

(** X1.  No operation of Patch/Node.js catches what it lets through: when
    one of them throws -- the exception of a native method, or the
    TypeError of [cloneNode] on a receiver without owner document -- the
    frame it pushed on entry is still on the stack, and it has popped
    nothing. *)
Theorem X1_node_operation_that_throws_keeps_its_frame
        {W : Type} {D : Dom W} {N : NativeMethods W} {U : UtilitiesModule W}
        {I : CustomElementInternals W} (op : Operation (W := W)) (s : State W)
        (e : Exn) :
  isNodeOperation op = true ->
  outcome (perform op) s = Throws e ->
  exists t,
    added (perform op) s (EvPush :: t)
    /\ forallb notFrameEvent t = true
    /\ frames (exec (perform op) s) = S (frames s).
Proof.
  destruct op; simpl; intros E Hthrow; try discriminate;
    try (apply outcome_discard_throws in Hthrow;
         unfold added; rewrite exec_discard);
    apply throws_after_push with (e := e); auto;
    unfold PatchNode.ownerDocument_CE_registry; unfold_calls;
    by_structure
      ltac:(first
              [ apply leavesOpen_pop_ret | apply leavesOpen_pop
              | apply leavesOpen_bind;
                [ solve [ by_structure
                            ltac:(first
                                    [ apply emits_ret | apply emits_throw
                                    | apply emits_read
                                    | apply emits_native; reflexivity
                                    | apply emits_engine; reflexivity
                                    | apply emits_when
                                    | apply emits_bind; [ | intro ]
                                    | apply emits_disconnectChildren; intro;
                                      reflexivity ]) ]
                | intro ] ]).
Qed.

Lemma X1_keeps_its_frame_witness :
  exists t,
    added (perform (Op_replaceChild 1 6 4)) Browser.start (EvPush :: t)
    /\ forallb notFrameEvent t = true
    /\ frames (exec (perform (Op_replaceChild 1 6 4)) Browser.start) = 1.
Proof.
  apply (X1_node_operation_that_throws_keeps_its_frame
           (Op_replaceChild 1 6 4) Browser.start
           (e := DOMException "NotFoundError")); reflexivity.
Defined.

(** X2.  [insertBefore], [appendChild], [removeChild] and [replaceChild]
    make their [disconnectTree] and early [connectTree] calls before the
    native mutation, so when the native method throws, those calls have
    been made for a mutation that did not take place: the trace of a
    throwing operation holds the push and engine calls only, no native
    mutation. *)
Theorem X2_structural_operation_that_throws_has_not_mutated
        {W : Type} {D : Dom W} {N : NativeMethods W} {U : UtilitiesModule W}
        {I : CustomElementInternals W} (op : Operation (W := W)) (s : State W)
        (e : Exn) :
  isStructuralNodeOperation op = true ->
  outcome (perform op) s = Throws e ->
  exists t,
    added (perform op) s (EvPush :: t) /\ forallb isTreeEngine t = true.
Proof.
  destruct op; simpl; intros E; try discriminate; clear E;
    run_op; repeat case_step; intros Hthrow; try discriminate;
    rewrite <- ?app_assoc; simpl; eexists; split; reflexivity.
Qed.

Lemma X2_has_not_mutated_witness :
  exists t,
    added (perform (Op_replaceChild 1 6 4)) Browser.start (EvPush :: t)
    /\ forallb isTreeEngine t = true.
Proof.
  apply (X2_structural_operation_that_throws_has_not_mutated
           (Op_replaceChild 1 6 4) Browser.start
           (e := DOMException "NotFoundError")); reflexivity.
Defined.

Example replaceChild_of_a_stranger :
  run (PatchNode.replaceChild 1 6 4) Browser.start
  = (Throws (DOMException "NotFoundError"),
     mkState (on_connectTree 6 (on_disconnectTree 4 Browser.page)) 1
             [EvPush; EvDisconnectTree 4; EvConnectTree 6]).
Proof. reflexivity. Qed.

(** X3.  The operations of the Element file call the native method before
    anything else that has an effect, so a native exception leaves no mark:
    the patched operation throws the same exception, and world, stack and
    trace are as they were -- no attribute-changed dispatch, no
    disconnected notification, no patching, no engine call. *)
Theorem X3_element_operations_are_atomic_when_native_throws
        {W : Type} {D : Dom W} {N : NativeMethods W} {U : UtilitiesModule W}
        {I : CustomElementInternals W} (s : State W) (e : Exn) :
  (forall this name newValue,
      native_setAttribute this name newValue (world s) = inl e ->
      run (PatchElement.setAttribute this name newValue) s = (Throws e, s))
  /\ (forall this namespace name newValue,
      native_setAttributeNS this namespace name newValue (world s) = inl e ->
      run (PatchElement.setAttributeNS this namespace name newValue) s = (Throws e, s))
  /\ (forall this name,
      native_removeAttribute this name (world s) = inl e ->
      run (PatchElement.removeAttribute this name) s = (Throws e, s))
  /\ (forall this namespace name,
      native_removeAttributeNS this namespace name (world s) = inl e ->
      run (PatchElement.removeAttributeNS this namespace name) s = (Throws e, s))
  /\ (forall baseMethod this position element,
      baseMethod this position element (world s) = inl e ->
      run (PatchElement.patch_insertAdjacentElement baseMethod this position element) s
      = (Throws e, s))
  /\ (forall baseMethod fuel this position text,
      validPosition position = true ->
      baseMethod this (toLowerCase position) text (world s) = inl e ->
      run (PatchElement.patch_insertAdjacentHTML baseMethod fuel this position text) s
      = (Throws e, s))
  /\ (forall baseDescriptor this htmlString,
      descriptor_set baseDescriptor this htmlString (world s) = inl e ->
      run (PatchElement.patch_innerHTML baseDescriptor this htmlString) s
      = (Throws e, s))
  /\ (forall baseDescriptor fuel this htmlString,
      descriptor_set baseDescriptor this htmlString (world s) = inl e ->
      run (PatchElement.patch_outerHTML baseDescriptor fuel this htmlString) s
      = (Throws e, s)).
Proof.
  repeat split.
  - intros this name newValue Hnative. run_op.
    destruct (CEState_eqb (__CE_state (world s) this) custom); simpl;
      rewrite Hnative; reflexivity.
  - intros this namespace name newValue Hnative. run_op.
    destruct (CEState_eqb (__CE_state (world s) this) custom); simpl;
      rewrite Hnative; reflexivity.
  - intros this name Hnative. run_op.
    destruct (CEState_eqb (__CE_state (world s) this) custom); simpl;
      rewrite Hnative; reflexivity.
  - intros this namespace name Hnative. run_op.
    destruct (CEState_eqb (__CE_state (world s) this) custom); simpl;
      rewrite Hnative; reflexivity.
  - intros baseMethod this position element Hnative. run_op.
    rewrite Hnative. reflexivity.
  - intros baseMethod fuel this position text Hvalid Hnative.
    unfold run, PatchElement.patch_insertAdjacentHTML, validPosition in *.
    cbv zeta in *.
    destruct (toLowerCase position =? "beforebegin")%string;
      [ unfold bind, read, native; simpl; rewrite Hnative; reflexivity |].
    destruct (toLowerCase position =? "afterbegin")%string;
      [ unfold bind, read, native; simpl; rewrite Hnative; reflexivity |].
    destruct (toLowerCase position =? "beforeend")%string;
      [ unfold bind, read, native; simpl; rewrite Hnative; reflexivity |].
    destruct (toLowerCase position =? "afterend")%string;
      [ unfold bind, read, native; simpl; rewrite Hnative; reflexivity |].
    discriminate.
  - intros baseDescriptor this htmlString Hnative.
    apply HTMLsetter_native_throws, Hnative.
  - intros baseDescriptor fuel this htmlString Hnative.
    apply HTMLsetter_native_throws, Hnative.
Qed.

Lemma X3_atomic_witness :
  run (PatchElement.patch_insertAdjacentHTML Browser.Element_insertAdjacentHTML
                                             4 6 "BeforeBegin" "<p></p>") Browser.start
  = (Throws (DOMException "NoModificationAllowedError"), Browser.start).
Proof.
  destruct (X3_element_operations_are_atomic_when_native_throws
              Browser.start (DOMException "NoModificationAllowedError"))
    as [_ [_ [_ [_ [_ [Hhtml _]]]]]].
  exact (Hhtml Browser.Element_insertAdjacentHTML 4 6 "BeforeBegin" "<p></p>"
               eq_refl eq_refl).
Defined.

(** ** Away from the document *)

(** X4.  Off the document the patches are transparent.  When neither the
    receiver nor the node moved is connected -- before the native mutation
    and, for an insertion, after it -- [insertBefore], [appendChild],
    [removeChild] and [replaceChild] are the native method between a push
    and a pop: same result, same world, no engine call. *)
Theorem X4_detached_mutations_are_the_native_ones
        {W : Type} {D : Dom W} {N : NativeMethods W} {U : UtilitiesModule W}
        {I : CustomElementInternals W} (s : State W) :
  (forall this node refNode,
      (if instanceofDocumentFragment (world s) node
       then util_isConnected (world s) this = false
       else connectedElement (world s) node = false
            /\ forall r w',
                native_insertBefore this node refNode (world s) = inr (r, w') ->
                instanceofElement (world s) node && util_isConnected w' node = false) ->
      run (PatchNode.insertBefore this node refNode) s
      = bracketed (Call_insertBefore this node refNode)
                  (native_insertBefore this node refNode) s)
  /\ (forall this node,
      (if instanceofDocumentFragment (world s) node
       then util_isConnected (world s) this = false
       else connectedElement (world s) node = false
            /\ forall r w',
                native_appendChild this node (world s) = inr (r, w') ->
                instanceofElement (world s) node && util_isConnected w' node = false) ->
      run (PatchNode.appendChild this node) s
      = bracketed (Call_appendChild this node) (native_appendChild this node) s)
  /\ (forall this node,
      connectedElement (world s) node = false ->
      run (PatchNode.removeChild this node) s
      = bracketed (Call_removeChild this node) (native_removeChild this node) s)
  /\ (forall this nodeToInsert nodeToRemove,
      util_isConnected (world s) this = false ->
      (if instanceofDocumentFragment (world s) nodeToInsert
       then True else connectedElement (world s) nodeToInsert = false) ->
      run (PatchNode.replaceChild this nodeToInsert nodeToRemove) s
      = bracketed (Call_replaceChild this nodeToInsert nodeToRemove)
                  (native_replaceChild this nodeToInsert nodeToRemove) s).
Proof.
  unfold connectedElement, bracketed.
  split; [| split; [| split]].
  - intros this node refNode Hoff. run_op.
    destruct (instanceofDocumentFragment (world s) node); simpl.
    + rewrite Hoff. simpl.
      destruct (native_insertBefore this node refNode (world s)) as [e | [r w']];
        simpl; rewrite <- ?app_assoc; reflexivity.
    + destruct Hoff as [Hbefore Hafter]. rewrite Hbefore. simpl.
      destruct (native_insertBefore this node refNode (world s)) as [e | [r w']];
        simpl; [reflexivity |].
      rewrite (Hafter r w' eq_refl). simpl. rewrite <- ?app_assoc. reflexivity.
  - intros this node Hoff. run_op.
    destruct (instanceofDocumentFragment (world s) node); simpl.
    + rewrite Hoff. simpl.
      destruct (native_appendChild this node (world s)) as [e | [r w']];
        simpl; rewrite <- ?app_assoc; reflexivity.
    + destruct Hoff as [Hbefore Hafter]. rewrite Hbefore. simpl.
      destruct (native_appendChild this node (world s)) as [e | [r w']];
        simpl; [reflexivity |].
      rewrite (Hafter r w' eq_refl). simpl. rewrite <- ?app_assoc. reflexivity.
  - intros this node Hoff. run_op. rewrite Hoff. simpl.
    destruct (native_removeChild this node (world s)) as [e | [r w']];
      simpl; rewrite <- ?app_assoc; reflexivity.
  - intros this nodeToInsert nodeToRemove Hthis Hoff. run_op. rewrite Hthis. simpl.
    destruct (instanceofDocumentFragment (world s) nodeToInsert); simpl.
    + destruct (native_replaceChild this nodeToInsert nodeToRemove (world s))
        as [e | [r w']]; simpl; rewrite <- ?app_assoc; reflexivity.
    + destruct (instanceofElement (world s) nodeToInsert); simpl in *.
      * rewrite Hoff. simpl.
        destruct (native_replaceChild this nodeToInsert nodeToRemove (world s))
          as [e | [r w']]; simpl; rewrite <- ?app_assoc; reflexivity.
      * destruct (native_replaceChild this nodeToInsert nodeToRemove (world s))
          as [e | [r w']]; simpl; rewrite <- ?app_assoc; reflexivity.
Qed.

Lemma X4_detached_witness :
  run (PatchNode.appendChild 6 8) Browser.start
  = bracketed (Call_appendChild 6 8) (native_appendChild 6 8) Browser.start
  /\ run (PatchNode.removeChild 7 8) Browser.start
     = bracketed (Call_removeChild 7 8) (native_removeChild 7 8) Browser.start.
Proof.
  destruct (X4_detached_mutations_are_the_native_ones Browser.start)
    as [_ [Happend [Hremove _]]].
  split.
  - apply (Happend 6 8). simpl. split; [reflexivity |].
    intros r w' Hnative. injection Hnative as <- <-. reflexivity.
  - apply (Hremove 7 8). reflexivity.
Defined.

(** ** The position of [insertAdjacentHTML] is case-insensitive *)

Lemma toLowerCase_ascii_idempotent (c : ascii) :
  toLowerCase_ascii (toLowerCase_ascii c) = toLowerCase_ascii c.
Proof.
  destruct c as [[] [] [] [] [] [] [] []]; reflexivity.
Qed.

Lemma toLowerCase_idempotent (position : string) :
  toLowerCase (toLowerCase position) = toLowerCase position.
Proof.
  induction position as [| c rest IH]; simpl; [reflexivity |].
  rewrite toLowerCase_ascii_idempotent, IH. reflexivity.
Qed.

(** X5.  The patched [insertAdjacentHTML] treats its position without
    regard to ASCII case: called with a position or with its lower-cased
    form it does the same thing, down to the position it hands to the
    native method and the text of the SyntaxError. *)
Theorem X5_insertAdjacentHTML_position_is_case_insensitive
        {W : Type} {D : Dom W} {N : NativeMethods W} {U : UtilitiesModule W}
        {I : CustomElementInternals W}
        (baseMethod : Node -> string -> string -> W -> Exn + unit * W)
        (fuel : nat) (this : Node) (position text : string) (s : State W) :
  run (PatchElement.patch_insertAdjacentHTML baseMethod fuel this position text) s
  = run (PatchElement.patch_insertAdjacentHTML
           baseMethod fuel this (toLowerCase position) text) s.
Proof.
  unfold run, PatchElement.patch_insertAdjacentHTML. cbv zeta.
  rewrite toLowerCase_idempotent. reflexivity.
Qed.

(** ** A receiver without owner document *)

(** X6.  The patches read a property of [this.ownerDocument] without
    testing it for [null].  On a receiver that has no owner document -- a
    document is one -- [cloneNode] throws a TypeError once the native clone
    has been made: the clone is left unpatched and the frame stays on the
    stack.  The [innerHTML] and [outerHTML] setters throw it once the native
    setter and the disconnection notifications are over, before anything
    is patched. *)
Theorem X6_receiver_without_owner_document
        {W : Type} {D : Dom W} {N : NativeMethods W} {U : UtilitiesModule W}
        {I : CustomElementInternals W} (s : State W) :
  (forall this deep clone w',
      native_cloneNode this deep (world s) = inr (clone, w') ->
      ownerDocument w' this = None ->
      run (PatchNode.cloneNode this deep) s
      = (Throws (TypeError "Cannot read properties of null"),
         mkState w' (S (frames s))
                 (log s ++ [EvPush; EvNative (Call_cloneNode this deep)])))
  /\ (forall baseDescriptor this htmlString w1,
      descriptor_set baseDescriptor this htmlString (world s) = inr (tt, w1) ->
      ownerDocument (notifiedWorld (removedBy (world s) this) w1) this = None ->
      run (PatchElement.patch_innerHTML baseDescriptor this htmlString) s
      = (Throws (TypeError "Cannot read properties of null"),
         mkState (notifiedWorld (removedBy (world s) this) w1) (frames s)
                 (log s ++ EvNative (Call_set "innerHTML" this htmlString)
                        :: map EvDisconnected (notified (removedBy (world s) this) w1))))
  /\ (forall baseDescriptor fuel this htmlString w1,
      descriptor_set baseDescriptor this htmlString (world s) = inr (tt, w1) ->
      ownerDocument (notifiedWorld (removedBy (world s) this) w1) this = None ->
      run (PatchElement.patch_outerHTML baseDescriptor fuel this htmlString) s
      = (Throws (TypeError "Cannot read properties of null"),
         mkState (notifiedWorld (removedBy (world s) this) w1) (frames s)
                 (log s ++ EvNative (Call_set "outerHTML" this htmlString)
                        :: map EvDisconnected (notified (removedBy (world s) this) w1)))).
Proof.
  split; [| split].
  - intros this deep clone w' Hnative Hdoc. run_op.
    rewrite Hnative. simpl. rewrite Hdoc. simpl. rewrite <- app_assoc. reflexivity.
  - intros baseDescriptor this htmlString w1 Hnative Hdoc.
    unfold run, PatchElement.patch_innerHTML.
    rewrite (HTMLsetter_run _ _ _ _ _ _ Hnative).
    unfold PatchElement.ownerDocument_CE_hasRegistry, bind, read, throw. simpl.
    rewrite Hdoc. reflexivity.
  - intros baseDescriptor fuel this htmlString w1 Hnative Hdoc.
    unfold run, PatchElement.patch_outerHTML.
    rewrite (HTMLsetter_run _ _ _ _ _ _ Hnative).
    unfold PatchElement.ownerDocument_CE_hasRegistry, bind, read, throw. simpl.
    rewrite Hdoc. reflexivity.
Qed.

Lemma X6_without_owner_document_witness :
  run (PatchNode.cloneNode 0 false) Browser.start
  = (Throws (TypeError "Cannot read properties of null"),
     mkState (world (exec (Native.Node_cloneNode 0 false) Browser.start)) 1
             [EvPush; EvNative (Call_cloneNode 0 false)]).
Proof.
  destruct (X6_receiver_without_owner_document Browser.start) as [Hclone _].
  exact (Hclone 0 false 9
                (world (exec (Native.Node_cloneNode 0 false) Browser.start))
                eq_refl eq_refl).
Defined.
